(** * EmbeddedWiegand: the encoder and the transmitter state machine

    A shallow embedding of [include/pins.hpp] and
    [include/wiegand_interface.hpp].  Unsigned machine integers are
    values of [Z] with their wrap-around written out. *)

From Stdlib Require Import ZArith List Bool Lia.
Import ListNotations.
Local Open Scope Z_scope.

(** ** Machine integers *)

(** The value of [x] converted to an unsigned type of [bits] bits. *)
Definition wrap (bits x : Z) : Z := x mod 2 ^ bits.

(** The instantiations of the template parameter [typename T] that are
    modelled: the two unsigned types the header itself uses. *)
Inductive CodeType : Type := UInt32 | UInt64.

Definition type_bits (T : CodeType) : Z :=
  match T with UInt32 => 32 | UInt64 => 64 end.

(** [std::conditional<BITS <= 32, uint32_t, uint64_t>::type] *)
Definition R_type (BITS : Z) : CodeType :=
  if BITS <=? 32 then UInt32 else UInt64.

Section Target.

(** Width of [size_t] on the target. *)
Variable size_bits : Z.

(** What the target yields for [x << k] when [k] is not smaller than the
    width of the operand.  C++ leaves it undefined, so it is left open. *)
Variable shl_overflow : Z -> Z -> Z.

(** [x << k] on an operand of [bits] bits, [k] an unsigned amount. *)
Definition shl (bits x k : Z) : Z :=
  if k <? bits then wrap bits (Z.shiftl x k) else wrap bits (shl_overflow x k).

(** ** Encoder *)

(** One of the two [for] loops of [add_parity], run [n] times:
    [parity ^= code & 1; code >>= 1]. *)
Fixpoint parity_loop (n : nat) (parity code : Z) : Z * Z :=
  match n with
  | O => (parity, code)
  | S n' => parity_loop n' (Z.lxor parity (Z.land code 1)) (Z.shiftr code 1)
  end.

(** [add_parity<BITS>(T code)] *)
Definition add_parity (BITS : Z) (T : CodeType) (code : Z) : Z :=
  let R := type_bits (R_type BITS) in
  let code_shifted := wrap R (wrap (type_bits T) (Z.shiftl code 1)) in
  let iterations := Z.to_nat (wrap size_bits (BITS / 2 - 1)) in
  let '(parity_odd, code) := parity_loop iterations 1 code in
  let '(parity_even, code) := parity_loop iterations 0 code in
  Z.lor (Z.lor code_shifted
               (shl R parity_even (wrap size_bits (BITS - 1))))
        parity_odd.

(** The local [const R code] of [code<BITS>(facility, id)]; [facility]
    arrives as a [uint8_t]. *)
Definition raw_code (BITS : Z) (facility id : Z) : Z :=
  let R := type_bits (R_type BITS) in
  let facility := wrap 8 facility in
  wrap R (Z.lor (shl R (wrap R facility) (wrap size_bits (BITS - 10))) id).

(** [code<BITS>(uint8_t facility, T id)] *)
Definition code (BITS : Z) (facility id : Z) : Z :=
  add_parity BITS (R_type BITS) (raw_code BITS facility id).

(** *** The parity layout as the specification words it *)

(** XOR of the [n] bits of [code] from bit [lo] upwards, starting from
    [seed]. *)
Fixpoint xor_bits (seed : bool) (code lo : Z) (n : nat) : bool :=
  match n with
  | O => seed
  | S n' => xor_bits (xorb seed (Z.testbit code lo)) code (lo + 1) n'
  end.

(** Number of set bits among the [n] bits of [code] from bit [lo]. *)
Fixpoint count_bits (code lo : Z) (n : nat) : nat :=
  match n with
  | O => O
  | S n' => ((if Z.testbit code lo then 1 else 0) + count_bits code (lo + 1) n')%nat
  end.

Definition half_width (BITS : Z) : nat := Z.to_nat (BITS / 2 - 1).

Definition odd_parity (BITS code : Z) : bool :=
  xor_bits true code 0 (half_width BITS).

Definition even_parity (BITS code : Z) : bool :=
  xor_bits false code (Z.of_nat (half_width BITS)) (half_width BITS).

(** The word [add_parity] builds, with the two parities in closed form;
    the shift is the source's, made in the argument type. *)
Definition add_parity_spec (BITS : Z) (T : CodeType) (code : Z) : Z :=
  Z.lor (Z.lor (wrap (type_bits (R_type BITS))
                     (wrap (type_bits T) (Z.shiftl code 1)))
               (Z.shiftl (Z.b2z (even_parity BITS code)) (BITS - 1)))
        (Z.b2z (odd_parity BITS code)).

(** ** Pins ([pins.hpp]) *)

Inductive PinDirection : Type := PIN_INPUT | PIN_OUTPUT.

(** What the transmitter can observe of the wrapped [DigitalInOut]: its
    direction and the level last written to it. *)
Record Pin : Type := mkPin {
  pin_direction : PinDirection;
  pin_value : bool
}.

(** [Pin(PinName name) : pin_{name, PIN_INPUT, OpenDrainNoPull, 1}] *)
Definition Pin_new : Pin := mkPin PIN_INPUT true.

(** [void input() { pin_.input(); }] *)
Definition input (p : Pin) : Pin := mkPin PIN_INPUT (pin_value p).

(** [void output() { pin_.output(); pin_.mode(OpenDrainNoPull); pin_.write(1); }] *)
Definition output (p : Pin) : Pin := mkPin PIN_OUTPUT true.

(** [void set_low() { pin_.write(0); }] *)
Definition set_low (p : Pin) : Pin := mkPin (pin_direction p) false.

(** [void set_high() { pin_.write(1); }] *)
Definition set_high (p : Pin) : Pin := mkPin (pin_direction p) true.

(** An open-drain pin pulls the bus low only while it is an output
    whose written level is 0. *)
Definition driven_low (p : Pin) : Prop :=
  pin_direction p = PIN_OUTPUT /\ pin_value p = false.

(** The calls made on the two lines, in program order. *)
Inductive Line : Type := D0 | D1.
Inductive PinCall : Type := Input | Output | SetLow | SetHigh.
Definition Event : Type := (Line * PinCall)%type.

Definition apply_call (c : PinCall) : Pin -> Pin :=
  match c with
  | Input => input
  | Output => output
  | SetLow => set_low
  | SetHigh => set_high
  end.

Definition is_set_low (e : Event) : bool :=
  match snd e with SetLow => true | _ => false end.

(** ** Transmitter ([wiegand_interface.hpp]) *)

Inductive State : Type := IDLE | RECEIVING | SENDING.

Record WiegandInterface : Type := mkWiegand {
  state_ : State;
  d0_pin_ : Pin;
  d1_pin_ : Pin;
  code_ : Z;
  code_ext_ : Z;
  mask_bit_ : Z;
  send_pos_ : Z;
  send_bits_ : Z
}.

(** [WiegandInterface(Pin& d0_pin, Pin& d1_pin)] with the default member
    initialisers. *)
Definition WiegandInterface_new (d0_pin d1_pin : Pin) : WiegandInterface :=
  mkWiegand IDLE d0_pin d1_pin 0 0 1 0 26.

Definition initial : WiegandInterface := WiegandInterface_new Pin_new Pin_new.

Definition set_state_ (v : State) (s : WiegandInterface) : WiegandInterface :=
  mkWiegand v (d0_pin_ s) (d1_pin_ s) (code_ s) (code_ext_ s) (mask_bit_ s)
            (send_pos_ s) (send_bits_ s).
Definition set_code_ (v : Z) (s : WiegandInterface) : WiegandInterface :=
  mkWiegand (state_ s) (d0_pin_ s) (d1_pin_ s) v (code_ext_ s) (mask_bit_ s)
            (send_pos_ s) (send_bits_ s).
Definition set_code_ext_ (v : Z) (s : WiegandInterface) : WiegandInterface :=
  mkWiegand (state_ s) (d0_pin_ s) (d1_pin_ s) (code_ s) v (mask_bit_ s)
            (send_pos_ s) (send_bits_ s).
Definition set_mask_bit_ (v : Z) (s : WiegandInterface) : WiegandInterface :=
  mkWiegand (state_ s) (d0_pin_ s) (d1_pin_ s) (code_ s) (code_ext_ s) v
            (send_pos_ s) (send_bits_ s).
Definition set_send_pos_ (v : Z) (s : WiegandInterface) : WiegandInterface :=
  mkWiegand (state_ s) (d0_pin_ s) (d1_pin_ s) (code_ s) (code_ext_ s)
            (mask_bit_ s) v (send_bits_ s).
Definition set_send_bits_ (v : Z) (s : WiegandInterface) : WiegandInterface :=
  mkWiegand (state_ s) (d0_pin_ s) (d1_pin_ s) (code_ s) (code_ext_ s)
            (mask_bit_ s) (send_pos_ s) v.

(** A member function body: the new object and the pin calls it made. *)
Definition Cmd : Type := WiegandInterface -> WiegandInterface * list Event.

Definition pin_call (l : Line) (c : PinCall) : Cmd := fun s =>
  (match l with
   | D0 => mkWiegand (state_ s) (apply_call c (d0_pin_ s)) (d1_pin_ s) (code_ s)
                     (code_ext_ s) (mask_bit_ s) (send_pos_ s) (send_bits_ s)
   | D1 => mkWiegand (state_ s) (d0_pin_ s) (apply_call c (d1_pin_ s)) (code_ s)
                     (code_ext_ s) (mask_bit_ s) (send_pos_ s) (send_bits_ s)
   end, [(l, c)]).

Definition and_then (a b : Cmd) : Cmd := fun s =>
  let '(s1, e1) := a s in
  let '(s2, e2) := b s1 in
  (s2, e1 ++ e2).

Notation "a ;; b" := (and_then a b) (at level 61, right associativity).

(** [send(T code, size_t send_bits)]: the result, the new object and the
    pin calls (there are none).  The guard on line 92 reads [state]; it is
    taken to be the member [state_].  The literal [1] of the two shifts
    is an [int], taken to be 32 bits wide; [1 << 31] converts to the top
    bit of a [uint32_t]. *)
Definition send (T : CodeType) (c send_bits : Z) (s : WiegandInterface)
  : bool * WiegandInterface * list Event :=
  match state_ s with
  | IDLE =>
      let s :=
        if send_bits >? 32 then
          let s := set_code_ (match T with
                              | UInt32 => 0
                              | UInt64 => wrap 32 (Z.shiftr c 32)
                              end) s in
          let s := set_code_ext_ (wrap 32 c) s in
          set_mask_bit_ (shl 32 1 (wrap size_bits (send_bits - 1 - 32))) s
        else
          let s := set_code_ (wrap 32 c) s in
          set_mask_bit_ (shl 32 1 (wrap size_bits (send_bits - 1))) s in
      let s := set_send_pos_ 0 s in
      let s := set_send_bits_ send_bits s in
      (true, set_state_ SENDING s, [])
  | _ => (false, s, [])
  end.

(** [write_bit(unsigned val)] *)
Definition write_bit (val : Z) : Cmd :=
  if val =? 0 then pin_call D0 SetLow else pin_call D1 SetLow.

(** The [switch (tick_state)] of [tick]; the flag tells that [tick]
    returned from inside it. *)
Definition tick_switch (s : WiegandInterface)
  : WiegandInterface * list Event * bool :=
  let tick_state := send_pos_ s mod 4 in
  if tick_state =? 0 then
    let '(s, e) := write_bit (Z.land (code_ s) (mask_bit_ s)) s in
    (set_mask_bit_ (Z.shiftr (mask_bit_ s) 1) s, e, false)
  else if tick_state =? 1 then
    let '(s, e) := (pin_call D0 SetHigh ;; pin_call D1 SetHigh) s in
    let s := set_send_bits_ (wrap size_bits (send_bits_ s - 1)) s in
    if send_bits_ s =? 0 then
      let '(s, e') := (pin_call D0 Input ;; pin_call D1 Input) s in
      (set_state_ IDLE s, e ++ e', true)
    else (s, e, false)
  else (s, [], false).

(** [if (mask_bit_ == 0) { mask_bit_ = 1 << 31; code_ = code_ext_; }] *)
Definition carry_over (s : WiegandInterface) : WiegandInterface :=
  if mask_bit_ s =? 0
  then set_code_ (code_ext_ s) (set_mask_bit_ (shl 32 1 31) s)
  else s.

(** [tick()] *)
Definition tick : Cmd := fun s =>
  match state_ s with
  | SENDING =>
      let '(s, e0) :=
        if send_pos_ s =? 0
        then (pin_call D0 Output ;; pin_call D1 Output) s
        else (s, []) in
      let '(s, e1, returned) := tick_switch s in
      if returned then (s, e0 ++ e1)
      else (set_send_pos_ (wrap size_bits (send_pos_ s + 1)) (carry_over s),
            e0 ++ e1)
  | _ => (s, [])
  end.

(** [n] successive calls of [tick]: the final object and, for each call,
    the pin calls it made. *)
Fixpoint run (n : nat) (s : WiegandInterface)
  : WiegandInterface * list (list Event) :=
  match n with
  | O => (s, [])
  | S n' =>
      let '(s1, e) := tick s in
      let '(s2, es) := run n' s1 in
      (s2, e :: es)
  end.

(** The object a successful or rejected [send] leaves behind. *)
Definition after_send (T : CodeType) (c send_bits : Z) (s : WiegandInterface)
  : WiegandInterface := snd (fst (send T c send_bits s)).

(** States a client can bring about from a freshly constructed
    transmitter on freshly constructed pins. *)
Inductive reachable : WiegandInterface -> Prop :=
| reachable_initial : reachable initial
| reachable_send T c send_bits s :
    reachable s -> reachable (after_send T c send_bits s)
| reachable_tick s :
    reachable s -> reachable (fst (tick s)).

(** *** The pulse train as the specification words it *)

Definition bit_line (b : bool) : Line := if b then D1 else D0.

(** Phase 0 of a bit; the first one of a job switches the lines to
    output beforehand. *)
Definition phase0_events (first b : bool) : list Event :=
  (if first then [(D0, Output); (D1, Output)] else []) ++ [(bit_line b, SetLow)].

(** Phase 1 of a bit; the last one of a job floats the lines. *)
Definition phase1_events (last : bool) : list Event :=
  [(D0, SetHigh); (D1, SetHigh)]
  ++ (if last then [(D0, Input); (D1, Input)] else []).

(** The pin calls of each tick of a job sending [bits], first bit first:
    four ticks per bit, two for the last. *)
Fixpoint bit_frames (first : bool) (bits : list bool) : list (list Event) :=
  match bits with
  | [] => []
  | b :: rest =>
      match rest with
      | [] => [phase0_events first b; phase1_events true]
      | _ :: _ =>
          [phase0_events first b; phase1_events false; []; []]
          ++ bit_frames false rest
      end
  end.

(** The [n] bits of [c] from bit [hi] downwards. *)
Fixpoint bits_from (c hi : Z) (n : nat) : list bool :=
  match n with
  | O => []
  | S n' => Z.testbit c hi :: bits_from c (hi - 1) n'
  end.

(** The low [n] bits of [c], most significant first. *)
Definition code_bits (c : Z) (n : Z) : list bool :=
  bits_from c (n - 1) (Z.to_nat n).

(** Number of [set_low] calls in a run. *)
Definition pulses (frames : list (list Event)) : nat :=
  length (filter is_set_low (concat frames)).

(** Ticks from an accepted [send] of [n] bits to the return to [IDLE]. *)
Definition job_ticks (n : Z) : nat := Z.to_nat (4 * (n - 1) + 2).

(** *** The job as the object holds it

    What [tick] reads and leaves in [code_] and [mask_bit_] from one bit
    to the next; these mirror the statements of [tick] and serve to
    state what a run of ticks emits. *)

(** [code_ & mask_bit_] seen as the bit [write_bit] sends. *)
Definition current_bit (c m : Z) : bool := negb (Z.land c m =? 0).

(** [mask_bit_] after [mask_bit_ >>= 1] and the carry-over. *)
Definition next_mask (m : Z) : Z :=
  if Z.shiftr m 1 =? 0 then 2 ^ 31 else Z.shiftr m 1.

(** [code_] after the carry-over. *)
Definition next_code (c ext m : Z) : Z :=
  if Z.shiftr m 1 =? 0 then ext else c.

(** The bits the next [n] phase-0 ticks send. *)
Fixpoint pending_bits (n : nat) (c ext m : Z) : list bool :=
  match n with
  | O => []
  | S n' => current_bit c m :: pending_bits n' (next_code c ext m) ext (next_mask m)
  end.

(** The pin calls of each tick of the remaining [n] bits of a job whose
    position counter is [pos] at the start of a bit. *)
Fixpoint job_frames (n : nat) (pos c ext m : Z) : list (list Event) :=
  match n with
  | O => []
  | S n' =>
      match n' with
      | O => [phase0_events (pos =? 0) (current_bit c m); phase1_events true]
      | S _ =>
          [phase0_events (pos =? 0) (current_bit c m); phase1_events false; []; []]
          ++ job_frames n' (wrap size_bits (pos + 4)) (next_code c ext m) ext
                        (next_mask m)
      end
  end.

(** The object is sending and stands at phase 0 of a bit. *)
Definition at_bit_start (s : WiegandInterface) : Prop :=
  state_ s = SENDING /\ send_pos_ s mod 4 = 0 /\ 0 <= send_pos_ s < 2 ^ size_bits.

(** Both pins float. *)
Definition pins_input (s : WiegandInterface) : Prop :=
  pin_direction (d0_pin_ s) = PIN_INPUT /\ pin_direction (d1_pin_ s) = PIN_INPUT.

(** *** Predicates on the object and its pins *)

(** While idle, both pins float. *)
Definition idle_floating (s : WiegandInterface) : Prop :=
  state_ s = IDLE -> pins_input s.

(** The levels written to the pins: both high, except between phase 0
    and phase 1 of a bit, when one of them may be low. *)
Definition lines_inv (s : WiegandInterface) : Prop :=
  0 <= send_pos_ s < 2 ^ size_bits
  /\ ((pin_value (d0_pin_ s) = true /\ pin_value (d1_pin_ s) = true)
      \/ (state_ s = SENDING /\ send_pos_ s mod 4 = 1
          /\ (pin_value (d0_pin_ s) = true \/ pin_value (d1_pin_ s) = true))).

(** The [set_low] calls among the pin calls of one tick. *)
Definition set_low_calls (e : list Event) : list Event := filter is_set_low e.

(** *** Further predicates on reachable states *)

(** Past the first tick of a job both pins are outputs. *)
Definition outputs_inv (s : WiegandInterface) : Prop :=
  state_ s = SENDING -> send_pos_ s <> 0 ->
  pin_direction (d0_pin_ s) = PIN_OUTPUT /\ pin_direction (d1_pin_ s) = PIN_OUTPUT.

(** The mask selects one bit of a 32-bit word and both code words are
    32-bit values. *)
Definition words_inv (s : WiegandInterface) : Prop :=
  (exists k, 0 <= k <= 31 /\ mask_bit_ s = 2 ^ k)
  /\ 0 <= code_ s < 2 ^ 32
  /\ 0 <= code_ext_ s < 2 ^ 32.

(** States a client can bring about when every [send] passes a value
    of its type and asks for 1 to 64 bits. *)
Inductive reachable_supported : WiegandInterface -> Prop :=
| supported_initial : reachable_supported initial
| supported_send T c n s :
    reachable_supported s -> 1 <= n <= 64 -> 0 <= c < 2 ^ type_bits T ->
    reachable_supported (after_send T c n s)
| supported_tick s :
    reachable_supported s -> reachable_supported (fst (tick s)).

(** The pin inside [output()], between [pin_.output()] and
    [pin_.write(1)]: already an output, still at the level last
    written. *)
Definition output_switching (p : Pin) : Pin := mkPin PIN_OUTPUT (pin_value p).

(** * Properties *)

(** [size_t] has at least 16 bits. *)
Hypothesis size_bits_min : 16 <= size_bits.

(** ** Machine integers *)

Lemma wrap_small bits x : 0 <= x < 2 ^ bits -> wrap bits x = x.
Proof. intros H. unfold wrap. now apply Z.mod_small. Qed.

Lemma size_range x : 0 <= x < 2 ^ 16 -> 0 <= x < 2 ^ size_bits.
Proof.
  intros [H0 H1]. split; [assumption|].
  apply Z.lt_le_trans with (2 ^ 16); [assumption|].
  apply Z.pow_le_mono_r; lia.
Qed.

Lemma wrap_size_small x : 0 <= x < 2 ^ 16 -> wrap size_bits x = x.
Proof. intros H. apply wrap_small, size_range, H. Qed.

Lemma testbit_above k c n : 0 <= c < 2 ^ k -> 0 <= k <= n -> Z.testbit c n = false.
Proof.
  intros Hc Hk. rewrite <- (Z.mod_small c (2 ^ k)) by assumption.
  apply Z.mod_pow2_bits_high. lia.
Qed.

Lemma lor_lt_pow2 k a b :
  0 <= k -> 0 <= a < 2 ^ k -> 0 <= b < 2 ^ k -> 0 <= Z.lor a b < 2 ^ k.
Proof.
  intros Hk Ha Hb.
  assert (Hnn : 0 <= Z.lor a b) by (apply Z.lor_nonneg; lia).
  split; [assumption|].
  assert (E : Z.lor a b = Z.lor a b mod 2 ^ k).
  { apply Z.bits_inj'. intros n Hn.
    destruct (Z.ltb_spec n k) as [Hlt|Hge].
    - now rewrite Z.mod_pow2_bits_low.
    - rewrite Z.mod_pow2_bits_high by lia.
      rewrite Z.lor_spec, (testbit_above k a), (testbit_above k b) by lia.
      reflexivity. }
  rewrite E. apply Z.mod_pos_bound. apply Z.pow_pos_nonneg; lia.
Qed.

Lemma shiftl_lt_pow2 a n k :
  0 <= n -> 0 <= k -> 0 <= a < 2 ^ k -> 0 <= Z.shiftl a n < 2 ^ (k + n).
Proof.
  intros Hn Hk Ha. rewrite Z.shiftl_mul_pow2 by assumption.
  rewrite Z.pow_add_r by assumption.
  assert (0 < 2 ^ n) by (apply Z.pow_pos_nonneg; lia).
  nia.
Qed.

Lemma pow2_le_mono a b : 0 <= a <= b -> 2 ^ a <= 2 ^ b.
Proof. intros H. apply Z.pow_le_mono_r; lia. Qed.

Lemma R_bits_cases BITS :
  (BITS <= 32 /\ type_bits (R_type BITS) = 32)
  \/ (32 < BITS /\ type_bits (R_type BITS) = 64).
Proof.
  unfold R_type. destruct (Z.leb_spec BITS 32); [left|right]; split; trivial.
Qed.

Lemma shl_in_range bits x k :
  0 <= k < bits -> 0 <= x -> Z.shiftl x k < 2 ^ bits -> shl bits x k = Z.shiftl x k.
Proof.
  intros Hk Hx Hlt. unfold shl.
  destruct (Z.ltb_spec k bits); [|lia].
  apply wrap_small. split; [|assumption].
  apply Z.shiftl_nonneg. assumption.
Qed.

(** ** Encoder *)

Lemma lxor_b2z a b : Z.lxor (Z.b2z a) (Z.b2z b) = Z.b2z (xorb a b).
Proof. destruct a, b; reflexivity. Qed.

Lemma land_1 c : Z.land c 1 = Z.b2z (Z.testbit c 0).
Proof.
  change 1 with (Z.ones 1) at 1. rewrite Z.land_ones by lia.
  rewrite Z.bit0_mod. reflexivity.
Qed.

Lemma parity_loop_spec n : forall b c lo,
  0 <= lo ->
  parity_loop n (Z.b2z b) (Z.shiftr c lo)
  = (Z.b2z (xor_bits b c lo n), Z.shiftr c (lo + Z.of_nat n)).
Proof.
  induction n as [|n IH]; intros b c lo Hlo.
  - simpl. now rewrite Z.add_0_r.
  - cbn [parity_loop xor_bits].
    rewrite land_1, lxor_b2z, Z.shiftr_spec by lia.
    rewrite Z.shiftr_shiftr by lia.
    rewrite Z.add_0_l, IH by lia.
    do 2 f_equal. lia.
Qed.

Lemma xor_bits_count n : forall seed c lo,
  xor_bits seed c lo n = xorb seed (Nat.odd (count_bits c lo n)).
Proof.
  induction n as [|n IH]; intros seed c lo.
  - simpl. now rewrite xorb_false_r.
  - cbn [xor_bits count_bits]. rewrite IH.
    destruct (Z.testbit c lo).
    + change (1 + count_bits c (lo + 1) n)%nat with (S (count_bits c (lo + 1) n)).
      rewrite Nat.odd_succ, <- Nat.negb_odd.
      destruct seed, (Nat.odd (count_bits c (lo + 1) n)); reflexivity.
    + rewrite xorb_false_r. reflexivity.
Qed.

Lemma add_parity_closed BITS T c :
  2 <= BITS <= 64 -> add_parity BITS T c = add_parity_spec BITS T c.
Proof.
  intros HB. unfold add_parity, add_parity_spec, odd_parity, even_parity, half_width.
  assert (Hhalf : 0 <= BITS / 2 - 1 < 2 ^ 16).
  { assert (1 <= BITS / 2) by (apply Z.div_le_lower_bound; lia).
    assert (BITS / 2 <= 32) by (apply Z.div_le_upper_bound; lia).
    change (2 ^ 16) with 65536. lia. }
  rewrite (wrap_size_small (BITS / 2 - 1)) by assumption.
  rewrite (wrap_size_small (BITS - 1)) by (change (2 ^ 16) with 65536; lia).
  set (h := Z.to_nat (BITS / 2 - 1)).
  pose proof (parity_loop_spec h true c 0 (Z.le_refl 0)) as Hodd.
  rewrite Z.shiftr_0_r, Z.add_0_l in Hodd. cbn [Z.b2z] in Hodd.
  rewrite Hodd.
  pose proof (parity_loop_spec h false c (Z.of_nat h) (Nat2Z.is_nonneg h)) as Heven.
  cbn [Z.b2z] in Heven. rewrite Heven.
  f_equal. f_equal.
  set (pe := xor_bits false c (Z.of_nat h) h).
  apply shl_in_range.
  - destruct (R_bits_cases BITS) as [[? ->]|[? ->]]; lia.
  - destruct pe; simpl; lia.
  - assert (HR : BITS - 1 < type_bits (R_type BITS))
      by (destruct (R_bits_cases BITS) as [[? ->]|[? ->]]; lia).
    destruct pe; cbn [Z.b2z].
    + rewrite Z.shiftl_1_l. apply Z.pow_lt_mono_r; lia.
    + rewrite Z.shiftl_0_l. apply Z.pow_pos_nonneg; lia.
Qed.

(** ** Transmitter: single ticks *)

Lemma pow2_size_mult4 : exists K, 2 ^ size_bits = 4 * K /\ 64 <= K.
Proof.
  exists (2 ^ (size_bits - 2)). split.
  - change 4 with (2 ^ 2). rewrite <- Z.pow_add_r by lia. f_equal. lia.
  - change 64 with (2 ^ 6). apply pow2_le_mono. lia.
Qed.

Lemma phase_step pos k :
  0 <= pos < 2 ^ size_bits -> pos mod 4 = k -> 0 <= k < 3 ->
  wrap size_bits (pos + 1) = pos + 1 /\ (pos + 1) mod 4 = k + 1.
Proof.
  intros Hpos Hmod Hk. destruct pow2_size_mult4 as [K [HK _]].
  pose proof (Z.div_mod pos 4 ltac:(lia)) as Hdm.
  assert (pos + 1 < 2 ^ size_bits) by lia.
  split.
  - apply wrap_small. lia.
  - replace (pos + 1) with ((k + 1) + (pos / 4) * 4) by lia.
    rewrite Z.mod_add by lia. apply Z.mod_small. lia.
Qed.

Lemma phase_wrap pos :
  0 <= pos < 2 ^ size_bits -> pos mod 4 = 3 ->
  wrap size_bits (pos + 1) mod 4 = 0.
Proof.
  intros Hpos Hmod. destruct pow2_size_mult4 as [K [HK HK64]].
  pose proof (Z.div_mod pos 4 ltac:(lia)) as Hdm.
  unfold wrap. rewrite HK.
  assert (E : pos + 1 = 4 * (pos / 4 + 1)) by lia.
  rewrite E. rewrite Zmult_mod_distr_l.
  rewrite Z.mul_comm. apply Z.mod_mul. lia.
Qed.

Lemma wrap_range x : 0 <= wrap size_bits x < 2 ^ size_bits.
Proof. unfold wrap. apply Z.mod_pos_bound. apply Z.pow_pos_nonneg; lia. Qed.

Lemma tick_not_sending s : state_ s <> SENDING -> tick s = (s, []).
Proof. intros H. unfold tick. destruct (state_ s); congruence. Qed.

Lemma next_mask_nonzero m : next_mask m <> 0.
Proof.
  unfold next_mask. destruct (Z.eqb_spec (Z.shiftr m 1) 0); [discriminate|assumption].
Qed.

(** Phase 0: one line is pulled low, the mask moves on. *)
Lemma tick_phase0 s :
  state_ s = SENDING -> send_pos_ s mod 4 = 0 ->
  snd (tick s)
  = phase0_events (send_pos_ s =? 0) (current_bit (code_ s) (mask_bit_ s))
  /\ state_ (fst (tick s)) = SENDING
  /\ send_pos_ (fst (tick s)) = wrap size_bits (send_pos_ s + 1)
  /\ send_bits_ (fst (tick s)) = send_bits_ s
  /\ code_ext_ (fst (tick s)) = code_ext_ s
  /\ mask_bit_ (fst (tick s)) = next_mask (mask_bit_ s)
  /\ code_ (fst (tick s)) = next_code (code_ s) (code_ext_ s) (mask_bit_ s).
Proof.
  destruct s as [st p0 p1 c ext m pos n]. cbn. intros -> Hmod.
  unfold tick, tick_switch, carry_over, write_bit, and_then, pin_call,
    phase0_events, current_bit, next_mask, next_code.
  cbn -[Z.shiftr]. destruct (pos =? 0); cbn -[Z.shiftr]; rewrite Hmod;
    cbn -[Z.shiftr]; destruct (Z.land c m =? 0); cbn -[Z.shiftr];
    destruct (Z.shiftr m 1 =? 0); cbn -[Z.shiftr]; repeat split; reflexivity.
Qed.

(** Phase 1 of a bit that is not the last: both lines are released. *)
Lemma tick_phase1 s :
  state_ s = SENDING -> send_pos_ s mod 4 = 1 -> mask_bit_ s <> 0 ->
  wrap size_bits (send_bits_ s - 1) <> 0 ->
  snd (tick s) = phase1_events false
  /\ state_ (fst (tick s)) = SENDING
  /\ send_pos_ (fst (tick s)) = wrap size_bits (send_pos_ s + 1)
  /\ send_bits_ (fst (tick s)) = wrap size_bits (send_bits_ s - 1)
  /\ code_ext_ (fst (tick s)) = code_ext_ s
  /\ mask_bit_ (fst (tick s)) = mask_bit_ s
  /\ code_ (fst (tick s)) = code_ s.
Proof.
  destruct s as [st p0 p1 c ext m pos n]. cbn. intros -> Hmod Hm Hn.
  assert (Hpos : (pos =? 0) = false).
  { apply Z.eqb_neq. intros ->. discriminate. }
  apply Z.eqb_neq in Hm, Hn.
  unfold tick, tick_switch, carry_over, and_then, pin_call, phase1_events.
  cbn. rewrite Hpos. cbn. rewrite Hmod. cbn. rewrite Hn. cbn. rewrite Hm.
  repeat split; reflexivity.
Qed.

(** Phase 1 of the last bit: both lines are released and floated, and
    the object is idle again. *)
Lemma tick_phase1_last s :
  state_ s = SENDING -> send_pos_ s mod 4 = 1 ->
  wrap size_bits (send_bits_ s - 1) = 0 ->
  snd (tick s) = phase1_events true
  /\ state_ (fst (tick s)) = IDLE
  /\ pins_input (fst (tick s)).
Proof.
  destruct s as [st p0 p1 c ext m pos n]. cbn. intros -> Hmod Hn.
  assert (Hpos : (pos =? 0) = false).
  { apply Z.eqb_neq. intros ->. discriminate. }
  apply Z.eqb_eq in Hn.
  unfold tick, tick_switch, and_then, pin_call, phase1_events, pins_input.
  cbn. rewrite Hpos. cbn. rewrite Hmod. cbn. rewrite Hn. cbn.
  repeat split; reflexivity.
Qed.

(** Phases 2 and 3: no pin is touched. *)
Lemma tick_gap s :
  state_ s = SENDING -> 2 <= send_pos_ s mod 4 -> mask_bit_ s <> 0 ->
  snd (tick s) = []
  /\ state_ (fst (tick s)) = SENDING
  /\ send_pos_ (fst (tick s)) = wrap size_bits (send_pos_ s + 1)
  /\ send_bits_ (fst (tick s)) = send_bits_ s
  /\ code_ext_ (fst (tick s)) = code_ext_ s
  /\ mask_bit_ (fst (tick s)) = mask_bit_ s
  /\ code_ (fst (tick s)) = code_ s.
Proof.
  destruct s as [st p0 p1 c ext m pos n]. cbn. intros -> Hmod Hm.
  assert (Hpos : (pos =? 0) = false).
  { apply Z.eqb_neq. intros ->. cbn in Hmod. lia. }
  assert (H0 : (pos mod 4 =? 0) = false) by (apply Z.eqb_neq; lia).
  assert (H1 : (pos mod 4 =? 1) = false) by (apply Z.eqb_neq; lia).
  apply Z.eqb_neq in Hm.
  unfold tick, tick_switch, carry_over.
  cbn. rewrite Hpos. cbn. rewrite H0, H1. cbn. rewrite Hm.
  repeat split; reflexivity.
Qed.

(** ** Transmitter: runs of ticks *)

Lemma run_S n s :
  run (S n) s
  = (fst (run n (fst (tick s))), snd (tick s) :: snd (run n (fst (tick s)))).
Proof.
  cbn [run]. destruct (tick s) as [s1 e]. cbn [fst snd].
  destruct (run n s1) as [s2 es]. reflexivity.
Qed.

Lemma run_add a : forall b s,
  run (a + b) s
  = (fst (run b (fst (run a s))), snd (run a s) ++ snd (run b (fst (run a s)))).
Proof.
  induction a as [|a IH]; intros b s.
  - cbn. now destruct (run b s).
  - change (S a + b)%nat with (S (a + b)). rewrite !run_S, IH. reflexivity.
Qed.

Lemma run_length n : forall s, length (snd (run n s)) = n.
Proof.
  induction n as [|n IH]; intros s; [reflexivity|].
  rewrite run_S. cbn. now rewrite IH.
Qed.

Lemma run_not_sending n : forall s,
  state_ s <> SENDING -> run n s = (s, repeat [] n).
Proof.
  induction n as [|n IH]; intros s H; [reflexivity|].
  rewrite run_S, (tick_not_sending s H). cbn [fst snd].
  rewrite (IH s H). reflexivity.
Qed.

Lemma last_app_nonempty {A} (l1 l2 : list A) d :
  l2 <> [] -> last (l1 ++ l2) d = last l2 d.
Proof.
  intros H. induction l1 as [|x l1 IH]; [reflexivity|].
  cbn [app last]. rewrite IH.
  destruct (l1 ++ l2) eqn:E; [|reflexivity].
  apply app_eq_nil in E. tauto.
Qed.

Lemma last_app_repeat_nil (l : list (list Event)) k :
  (0 < k)%nat -> last (l ++ repeat [] k) [] = [].
Proof.
  intros Hk. destruct k as [|k]; [lia|].
  replace (S k) with (k + 1)%nat by lia.
  rewrite repeat_app, app_assoc. cbn [repeat]. apply last_last.
Qed.

(** While the last tick of a run still touched a pin, the object was
    sending before every tick of the run. *)
Lemma sending_until_last n s k :
  last (snd (run n s)) [] <> [] -> (k < n)%nat ->
  state_ (fst (run k s)) = SENDING.
Proof.
  intros Hlast Hk.
  destruct (state_ (fst (run k s))) eqn:E; [exfalso|exfalso|reflexivity];
    apply Hlast;
    replace n with (k + (n - k))%nat by lia;
    rewrite run_add; cbn [snd];
    rewrite (run_not_sending (n - k) (fst (run k s))) by congruence; cbn [snd];
    apply last_app_repeat_nil; lia.
Qed.

(** The four ticks of a bit that is not the last. *)
Lemma run_bit s :
  at_bit_start s -> wrap size_bits (send_bits_ s - 1) <> 0 ->
  snd (run 4 s)
  = [phase0_events (send_pos_ s =? 0) (current_bit (code_ s) (mask_bit_ s));
     phase1_events false; []; []]
  /\ at_bit_start (fst (run 4 s))
  /\ send_pos_ (fst (run 4 s)) = wrap size_bits (send_pos_ s + 4)
  /\ send_bits_ (fst (run 4 s)) = wrap size_bits (send_bits_ s - 1)
  /\ code_ext_ (fst (run 4 s)) = code_ext_ s
  /\ mask_bit_ (fst (run 4 s)) = next_mask (mask_bit_ s)
  /\ code_ (fst (run 4 s)) = next_code (code_ s) (code_ext_ s) (mask_bit_ s).
Proof.
  intros (Hst & Hmod & Hpos) Hn.
  destruct (tick_phase0 s Hst Hmod) as (E0 & St1 & P1 & N1 & X1 & M1 & C1).
  destruct (phase_step _ 0 Hpos Hmod ltac:(lia)) as [W1 Q1].
  rewrite W1 in P1.
  set (s1 := fst (tick s)) in *.
  assert (Hm1 : mask_bit_ s1 <> 0) by (rewrite M1; apply next_mask_nonzero).
  destruct (tick_phase1 s1 St1 ltac:(rewrite P1; exact Q1) Hm1
              ltac:(rewrite N1; exact Hn))
    as (E1 & St2 & P2 & N2 & X2 & M2 & C2).
  assert (R1 : 0 <= send_pos_ s1 < 2 ^ size_bits).
  { rewrite P1, <- W1. apply wrap_range. }
  destruct (phase_step _ 1 R1 ltac:(rewrite P1; exact Q1) ltac:(lia)) as [W2 Q2].
  rewrite W2 in P2.
  set (s2 := fst (tick s1)) in *.
  assert (Hm2 : mask_bit_ s2 <> 0) by (rewrite M2; exact Hm1).
  destruct (tick_gap s2 St2 ltac:(rewrite P2, Q2; lia) Hm2)
    as (E2 & St3 & P3 & N3 & X3 & M3 & C3).
  assert (R2 : 0 <= send_pos_ s2 < 2 ^ size_bits).
  { rewrite P2, <- W2. apply wrap_range. }
  destruct (phase_step _ 2 R2 ltac:(rewrite P2; exact Q2) ltac:(lia)) as [W3 Q3].
  rewrite W3 in P3.
  set (s3 := fst (tick s2)) in *.
  assert (Hm3 : mask_bit_ s3 <> 0) by (rewrite M3; exact Hm2).
  destruct (tick_gap s3 St3 ltac:(rewrite P3, Q3; lia) Hm3)
    as (E3 & St4 & P4 & N4 & X4 & M4 & C4).
  assert (R3 : 0 <= send_pos_ s3 < 2 ^ size_bits).
  { rewrite P3, <- W3. apply wrap_range. }
  pose proof (phase_wrap _ R3 ltac:(rewrite P3; exact Q3)) as Q4.
  set (s4 := fst (tick s3)) in *.
  assert (Erun : run 4 s = (s4, [snd (tick s); snd (tick s1); snd (tick s2); snd (tick s3)])).
  { rewrite !run_S. reflexivity. }
  rewrite Erun. cbn [fst snd].
  rewrite E0, E1, E2, E3.
  repeat split.
  - exact St4.
  - rewrite P4. exact Q4.
  - rewrite P4. apply wrap_range.
  - rewrite P4. apply wrap_range.
  - rewrite P4, P3, P2, P1. f_equal. lia.
  - rewrite N4, N3, N2, N1. reflexivity.
  - rewrite X4, X3, X2, X1. reflexivity.
  - rewrite M4, M3, M2, M1. reflexivity.
  - rewrite C4, C3, C2, C1. reflexivity.
Qed.

(** The two ticks of the last bit. *)
Lemma run_last_bit s :
  at_bit_start s -> wrap size_bits (send_bits_ s - 1) = 0 ->
  snd (run 2 s)
  = [phase0_events (send_pos_ s =? 0) (current_bit (code_ s) (mask_bit_ s));
     phase1_events true]
  /\ state_ (fst (run 2 s)) = IDLE
  /\ pins_input (fst (run 2 s)).
Proof.
  intros (Hst & Hmod & Hpos) Hn.
  destruct (tick_phase0 s Hst Hmod) as (E0 & St1 & P1 & N1 & X1 & M1 & C1).
  destruct (phase_step _ 0 Hpos Hmod ltac:(lia)) as [W1 Q1].
  rewrite W1 in P1.
  set (s1 := fst (tick s)) in *.
  destruct (tick_phase1_last s1 St1 ltac:(rewrite P1; exact Q1)
              ltac:(rewrite N1; exact Hn)) as (E1 & St2 & Pins).
  rewrite !run_S. cbn [run fst snd]. fold s1.
  rewrite E0, E1. repeat split; try assumption; apply Pins.
Qed.

(** A whole job, from the start of a bit with [S n] bits to go. *)
Lemma job_run n : forall s,
  at_bit_start s -> send_bits_ s = Z.of_nat (S n) ->
  Z.of_nat (S n) < 2 ^ size_bits ->
  snd (run (4 * n + 2) s)
  = job_frames (S n) (send_pos_ s) (code_ s) (code_ext_ s) (mask_bit_ s)
  /\ state_ (fst (run (4 * n + 2) s)) = IDLE
  /\ pins_input (fst (run (4 * n + 2) s)).
Proof.
  induction n as [|n IH]; intros s Hs Hbits Hlt.
  - apply run_last_bit; [assumption|]. rewrite Hbits. reflexivity.
  - assert (Hw : wrap size_bits (send_bits_ s - 1) = Z.of_nat (S n)).
    { rewrite Hbits, wrap_small by lia. lia. }
    destruct (run_bit s Hs ltac:(rewrite Hw; lia))
      as (E & Hs' & P & N & X & M & C).
    replace (4 * S n + 2)%nat with (4 + (4 * n + 2))%nat by lia.
    rewrite run_add. cbn [fst snd].
    destruct (IH (fst (run 4 s)) Hs' ltac:(rewrite N; exact Hw) ltac:(lia))
      as (E' & St & Pins).
    rewrite E, E', P, X, M, C.
    split; [reflexivity|]. split; assumption.
Qed.

Lemma pulses_app a b : pulses (a ++ b) = (pulses a + pulses b)%nat.
Proof. unfold pulses. now rewrite concat_app, filter_app, length_app. Qed.

Lemma pulses_job_frames n : forall pos c ext m,
  pulses (job_frames n pos c ext m) = n.
Proof.
  induction n as [|n IH]; intros pos c ext m; [reflexivity|].
  cbn [job_frames]. destruct n as [|n].
  - destruct (pos =? 0), (current_bit c m); reflexivity.
  - rewrite pulses_app, IH.
    destruct (pos =? 0), (current_bit c m); reflexivity.
Qed.

Lemma last_job_frames n : forall pos c ext m,
  last (job_frames (S n) pos c ext m) [] = phase1_events true.
Proof.
  induction n as [|n IH]; intros pos c ext m; [reflexivity|].
  change (job_frames (S (S n)) pos c ext m)
    with ([phase0_events (pos =? 0) (current_bit c m); phase1_events false; []; []]
          ++ job_frames (S n) (wrap size_bits (pos + 4)) (next_code c ext m) ext
                        (next_mask m)).
  rewrite last_app_nonempty; [apply IH|].
  cbn [job_frames]. destruct n; discriminate.
Qed.

(** As long as the position counter does not wrap, only the first bit
    of a job switches the lines to output. *)
Lemma job_frames_bit_frames n : forall pos c ext m,
  0 <= pos -> pos + 4 * Z.of_nat n < 2 ^ size_bits ->
  job_frames n pos c ext m = bit_frames (pos =? 0) (pending_bits n c ext m).
Proof.
  induction n as [|n IH]; intros pos c ext m Hpos Hlt; [reflexivity|].
  cbn [job_frames pending_bits bit_frames]. destruct n as [|n]; [reflexivity|].
  rewrite IH.
  - rewrite wrap_small by lia.
    destruct (Z.eqb_spec (pos + 4) 0); [lia|]. reflexivity.
  - apply wrap_range.
  - rewrite wrap_small by lia. lia.
Qed.

(** *** The mask as a cursor over the bits of a word *)

Lemma current_bit_pow2 c k : 0 <= k -> current_bit c (2 ^ k) = Z.testbit c k.
Proof.
  intros Hk. unfold current_bit.
  assert (E : Z.land c (2 ^ k) = if Z.testbit c k then 2 ^ k else 0).
  { apply Z.bits_inj'. intros i Hi.
    rewrite Z.land_spec, Z.pow2_bits_eqb by assumption.
    destruct (Z.eqb_spec k i) as [->|Hne].
    - destruct (Z.testbit c i); [now rewrite Z.pow2_bits_true|now rewrite Z.bits_0].
    - rewrite andb_false_r.
      destruct (Z.testbit c k); [now rewrite Z.pow2_bits_false|now rewrite Z.bits_0]. }
  rewrite E. destruct (Z.testbit c k); [|reflexivity].
  destruct (Z.eqb_spec (2 ^ k) 0) as [H0|]; [|reflexivity].
  pose proof (Z.pow_pos_nonneg 2 k ltac:(lia) Hk). lia.
Qed.

Lemma shiftr_pow2 k : 0 < k -> Z.shiftr (2 ^ k) 1 = 2 ^ (k - 1).
Proof.
  intros Hk. rewrite Z.shiftr_div_pow2 by lia.
  replace k with (k - 1 + 1) at 1 by lia.
  rewrite Z.pow_add_r by lia. change (2 ^ 1) with 2. apply Z.div_mul. lia.
Qed.

Lemma next_pow2 c ext k :
  0 < k -> next_mask (2 ^ k) = 2 ^ (k - 1) /\ next_code c ext (2 ^ k) = c.
Proof.
  intros Hk. unfold next_mask, next_code. rewrite shiftr_pow2 by assumption.
  pose proof (Z.pow_pos_nonneg 2 (k - 1) ltac:(lia) ltac:(lia)).
  destruct (Z.eqb_spec (2 ^ (k - 1)) 0); [lia|]. split; reflexivity.
Qed.

Lemma pending_bits_word n : forall k c ext,
  0 <= k -> Z.of_nat n <= k + 1 ->
  pending_bits n c ext (2 ^ k) = bits_from c k n.
Proof.
  induction n as [|n IH]; intros k c ext Hk Hn; [reflexivity|].
  cbn [pending_bits bits_from]. rewrite current_bit_pow2 by assumption. f_equal.
  destruct n as [|n]; [reflexivity|].
  destruct (next_pow2 c ext k ltac:(lia)) as [-> ->].
  apply IH; lia.
Qed.

Lemma pending_bits_carry a : forall r c ext,
  pending_bits (S a + r) c ext (2 ^ Z.of_nat a)
  = bits_from c (Z.of_nat a) (S a) ++ pending_bits r ext ext (2 ^ 31).
Proof.
  induction a as [|a IH]; intros r c ext.
  - cbn [Nat.add pending_bits bits_from app Z.of_nat].
    rewrite (current_bit_pow2 c 0) by lia. reflexivity.
  - change (S (S a) + r)%nat with (S (S a + r)).
    cbn [pending_bits bits_from app].
    rewrite current_bit_pow2 by lia. f_equal.
    destruct (next_pow2 c ext (Z.of_nat (S a)) ltac:(lia)) as [-> ->].
    replace (Z.of_nat (S a) - 1) with (Z.of_nat a) by lia.
    apply IH.
Qed.

Lemma bits_from_app c a : forall hi b,
  bits_from c hi (a + b) = bits_from c hi a ++ bits_from c (hi - Z.of_nat a) b.
Proof.
  induction a as [|a IH]; intros hi b.
  - cbn. now rewrite Z.sub_0_r.
  - cbn [Nat.add bits_from app]. rewrite IH. do 3 f_equal. lia.
Qed.

Lemma bits_from_ext c c' d n : forall hi,
  (forall i, hi - Z.of_nat n < i <= hi -> Z.testbit c i = Z.testbit c' (i + d)) ->
  bits_from c hi n = bits_from c' (hi + d) n.
Proof.
  induction n as [|n IH]; intros hi H; [reflexivity|].
  cbn [bits_from]. rewrite H by lia. f_equal.
  replace (hi + d - 1) with (hi - 1 + d) by lia.
  apply IH. intros i Hi. apply H. lia.
Qed.

(** ** Transmitter: [send] *)

Lemma send_idle T c n s :
  state_ s = IDLE ->
  send T c n s
  = (true,
     mkWiegand SENDING (d0_pin_ s) (d1_pin_ s)
       (if n >? 32
        then match T with UInt32 => 0 | UInt64 => wrap 32 (Z.shiftr c 32) end
        else wrap 32 c)
       (if n >? 32 then wrap 32 c else code_ext_ s)
       (if n >? 32
        then shl 32 1 (wrap size_bits (n - 1 - 32))
        else shl 32 1 (wrap size_bits (n - 1)))
       0 n,
     []).
Proof.
  destruct s as [st p0 p1 c0 ext m pos k]. cbn. intros ->.
  unfold send. cbn. destruct (n >? 32); reflexivity.
Qed.

Lemma send_busy T c n s : state_ s <> IDLE -> send T c n s = (false, s, []).
Proof. intros H. unfold send. destruct (state_ s); congruence. Qed.

Lemma high_word T c :
  0 <= c < 2 ^ type_bits T ->
  match T with UInt32 => 0 | UInt64 => wrap 32 (Z.shiftr c 32) end = Z.shiftr c 32.
Proof.
  intros Hc. rewrite Z.shiftr_div_pow2 by lia. destruct T; cbn [type_bits] in Hc.
  - symmetry. apply Z.div_small. assumption.
  - apply wrap_small. split.
    + apply Z.div_pos; lia.
    + apply Z.div_lt_upper_bound; [lia|]. change (2 ^ 32 * 2 ^ 32) with (2 ^ 64). lia.
Qed.

Lemma shl_1_pow2 k : 0 <= k < 32 -> shl 32 1 (wrap size_bits k) = 2 ^ k.
Proof.
  intros Hk. rewrite wrap_size_small by (change (2 ^ 16) with 65536; lia).
  unfold shl. destruct (Z.ltb_spec k 32); [|lia].
  rewrite Z.shiftl_1_l. apply wrap_small. split.
  - apply Z.pow_nonneg. lia.
  - apply Z.pow_lt_mono_r; lia.
Qed.

(** The ticks of an accepted job, in terms of what [send] stored. *)
Lemma send_job T c n s :
  state_ s = IDLE -> 1 <= n < 2 ^ size_bits ->
  snd (run (job_ticks n) (after_send T c n s))
  = job_frames (Z.to_nat n) 0 (code_ (after_send T c n s))
               (code_ext_ (after_send T c n s)) (mask_bit_ (after_send T c n s))
  /\ state_ (fst (run (job_ticks n) (after_send T c n s))) = IDLE
  /\ pins_input (fst (run (job_ticks n) (after_send T c n s))).
Proof.
  intros Hidle Hn. unfold after_send. rewrite (send_idle T c n s Hidle).
  cbn [fst snd].
  set (s0 := mkWiegand _ _ _ _ _ _ _ _).
  assert (Hs0 : at_bit_start s0).
  { repeat split; cbn; try lia; apply Z.pow_pos_nonneg; lia. }
  replace (job_ticks n) with (4 * Z.to_nat (n - 1) + 2)%nat by (unfold job_ticks; lia).
  replace (Z.to_nat n) with (S (Z.to_nat (n - 1))) by lia.
  apply (job_run (Z.to_nat (n - 1)) s0 Hs0); cbn [send_bits_ s0]; lia.
Qed.

(** What [send] stored makes the mask walk over the low [n] bits of the
    code, most significant first. *)
Lemma send_pending T c n s :
  state_ s = IDLE -> 1 <= n <= 64 -> 0 <= c < 2 ^ type_bits T ->
  pending_bits (Z.to_nat n) (code_ (after_send T c n s))
               (code_ext_ (after_send T c n s)) (mask_bit_ (after_send T c n s))
  = code_bits c n.
Proof.
  intros Hidle Hn Hc. unfold after_send, code_bits.
  rewrite (send_idle T c n s Hidle). cbn [fst snd code_ code_ext_ mask_bit_].
  destruct (Z.gtb_spec n 32) as [Hwide|Hnarrow].
  - rewrite high_word by assumption.
    rewrite shl_1_pow2 by lia.
    replace (Z.to_nat n) with (S (Z.to_nat (n - 33)) + 32)%nat by lia.
    replace (n - 1 - 32) with (Z.of_nat (Z.to_nat (n - 33))) by lia.
    rewrite pending_bits_carry, bits_from_app.
    rewrite (pending_bits_word 32 31) by lia.
    f_equal.
    + replace (n - 1) with (Z.of_nat (Z.to_nat (n - 33)) + 32) by lia.
      apply bits_from_ext. intros i Hi.
      apply Z.shiftr_spec. lia.
    + replace (n - 1 - Z.of_nat (S (Z.to_nat (n - 33)))) with (31 + 0) by lia.
      apply bits_from_ext. intros i Hi. rewrite Z.add_0_r.
      apply Z.mod_pow2_bits_low. lia.
  - rewrite shl_1_pow2 by lia.
    rewrite pending_bits_word by lia.
    replace (n - 1) with (n - 1 + 0) at 2 by lia.
    apply bits_from_ext. intros i Hi. rewrite Z.add_0_r.
    apply Z.mod_pow2_bits_low. lia.
Qed.

(** An accepted job pulses exactly the low [n] bits of the code. *)
Lemma send_frames T c n s :
  state_ s = IDLE -> 1 <= n <= 64 -> 0 <= c < 2 ^ type_bits T ->
  snd (run (job_ticks n) (after_send T c n s)) = bit_frames true (code_bits c n)
  /\ state_ (fst (run (job_ticks n) (after_send T c n s))) = IDLE
  /\ pins_input (fst (run (job_ticks n) (after_send T c n s))).
Proof.
  intros Hidle Hn Hc.
  assert (Hn' : 1 <= n < 2 ^ size_bits).
  { split; [lia|]. apply size_range. change (2 ^ 16) with 65536. lia. }
  destruct (send_job T c n s Hidle Hn') as (E & St & Pins).
  split; [|split; assumption].
  rewrite E, job_frames_bit_frames.
  - rewrite send_pending by assumption. reflexivity.
  - lia.
  - apply Z.lt_le_trans with (2 ^ 16); [change (2 ^ 16) with 65536; lia|].
    apply pow2_le_mono. lia.
Qed.

(** ** Transmitter: invariants *)

Ltac step_tick :=
  repeat (cbn -[Z.modulo Z.shiftr Z.land Z.pow wrap Z.sub Z.add] in *;
          match goal with
          | |- context [if ?b then _ else _] => destruct b eqn:?
          end);
  cbn -[Z.modulo Z.shiftr Z.land Z.pow wrap Z.sub Z.add] in *;
  repeat match goal with
         | H : (_ =? _) = true |- _ => apply Z.eqb_eq in H
         | H : (_ =? _) = false |- _ => apply Z.eqb_neq in H
         end.

Lemma idle_floating_tick s : idle_floating s -> idle_floating (fst (tick s)).
Proof.
  destruct s as [st p0 p1 c ext m pos n].
  unfold idle_floating, pins_input, tick, tick_switch, carry_over, write_bit,
    and_then, pin_call.
  intros H. destruct st; step_tick; intros; try discriminate; auto.
Qed.

Lemma idle_floating_send T c n s : idle_floating s -> idle_floating (after_send T c n s).
Proof.
  destruct s as [st p0 p1 c0 ext m pos k].
  unfold idle_floating, pins_input, after_send, send.
  intros H. destruct st; step_tick; intros; try discriminate; auto.
Qed.

Lemma lines_inv_tick s : lines_inv s -> lines_inv (fst (tick s)).
Proof.
  destruct s as [st [dir0 v0] [dir1 v1] c ext m pos n].
  unfold lines_inv, tick, tick_switch, carry_over, write_bit, and_then, pin_call.
  cbn [send_pos_ state_ d0_pin_ d1_pin_ pin_value].
  intros [Hpos Hv].
  destruct st; [cbn; auto | cbn; auto |].
  step_tick;
    try (split; [apply wrap_range || assumption | left; split; tauto]).
  all: match goal with
       | H : ?p mod 4 = 0 |- _ =>
           destruct (phase_step p 0 Hpos H ltac:(lia)) as [E1 E2]
       end.
  all: split; [apply wrap_range|]; rewrite E1; right; split; [reflexivity|];
    split; [exact E2|].
  all: destruct Hv as [[-> ->]|(_ & Hv & _)]; [auto|lia].
Qed.

Lemma lines_inv_send T c n s : lines_inv s -> lines_inv (after_send T c n s).
Proof.
  destruct s as [st [dir0 v0] [dir1 v1] c0 ext m pos k].
  unfold lines_inv, after_send, send.
  cbn [send_pos_ state_ d0_pin_ d1_pin_ pin_value].
  intros [Hpos Hv].
  destruct st; cbn [fst snd]; try (split; assumption).
  assert (0 < 2 ^ size_bits) by (apply Z.pow_pos_nonneg; lia).
  step_tick; (split; [lia|]); left;
    (destruct Hv as [Hv|(Hv & _)]; [exact Hv|discriminate]).
Qed.

Lemma lines_inv_initial : lines_inv initial.
Proof.
  split; cbn.
  - split; [lia|]. apply Z.pow_pos_nonneg; lia.
  - left. split; reflexivity.
Qed.

Lemma reachable_lines_inv s : reachable s -> lines_inv s.
Proof.
  induction 1 as [|T c n s _ IH|s _ IH].
  - exact lines_inv_initial.
  - apply lines_inv_send, IH.
  - apply lines_inv_tick, IH.
Qed.

Lemma lines_inv_not_both_low s :
  lines_inv s -> ~ (driven_low (d0_pin_ s) /\ driven_low (d1_pin_ s)).
Proof.
  intros [_ Hv] [[_ L0] [_ L1]].
  destruct Hv as [[H0 _]|(_ & _ & [H0|H1])]; congruence.
Qed.

(** What one tick pulls low, in every state. *)
Lemma tick_set_low_calls s :
  (length (set_low_calls (snd (tick s))) <= 1)%nat
  /\ (state_ s = SENDING -> send_pos_ s mod 4 = 0 ->
      set_low_calls (snd (tick s))
      = [(bit_line (current_bit (code_ s) (mask_bit_ s)), SetLow)])
  /\ (state_ s = SENDING -> send_pos_ s mod 4 <> 0 ->
      set_low_calls (snd (tick s)) = []).
Proof.
  destruct s as [st p0 p1 c ext m pos n].
  unfold set_low_calls, tick, tick_switch, carry_over, write_bit, and_then, pin_call,
    current_bit.
  destruct st; repeat split; intros; try discriminate; step_tick;
    try reflexivity; try lia; try contradiction; cbn; lia.
Qed.

(** ** Transmitter: positions inside a job *)

(** The object after the first [j] bits of a word, while the mask is
    still inside that word. *)
Lemma run_bits j : forall s k,
  at_bit_start s -> mask_bit_ s = 2 ^ k -> Z.of_nat j <= k ->
  Z.of_nat j < send_bits_ s < 2 ^ size_bits ->
  at_bit_start (fst (run (4 * j) s))
  /\ mask_bit_ (fst (run (4 * j) s)) = 2 ^ (k - Z.of_nat j)
  /\ code_ (fst (run (4 * j) s)) = code_ s
  /\ code_ext_ (fst (run (4 * j) s)) = code_ext_ s
  /\ send_bits_ (fst (run (4 * j) s)) = send_bits_ s - Z.of_nat j.
Proof.
  induction j as [|j IH]; intros s k Hs Hm Hk Hn.
  - cbn [Nat.mul run fst Z.of_nat]. rewrite !Z.sub_0_r. auto.
  - assert (Hw : wrap size_bits (send_bits_ s - 1) = send_bits_ s - 1)
      by (apply wrap_small; lia).
    destruct (run_bit s Hs ltac:(rewrite Hw; lia))
      as (_ & Hs' & _ & N & X & M & C).
    rewrite Hm in M, C.
    destruct (next_pow2 (code_ s) (code_ext_ s) k ltac:(lia)) as [Em Ec].
    rewrite Em in M. rewrite Ec in C. rewrite Hw in N.
    replace (4 * S j)%nat with (4 + 4 * j)%nat by lia.
    rewrite run_add. cbn [fst].
    destruct (IH (fst (run 4 s)) (k - 1) Hs' M ltac:(lia) ltac:(lia))
      as (A & B & D & E & F).
    repeat split; try apply A.
    + rewrite B. f_equal. lia.
    + rewrite D. exact C.
    + rewrite E. exact X.
    + rewrite F, N. lia.
Qed.

Lemma run_prefix k n s :
  (k <= n)%nat -> snd (run k s) = firstn k (snd (run n s)).
Proof.
  intros Hk. replace n with (k + (n - k))%nat by lia.
  rewrite run_add. cbn [snd].
  rewrite firstn_app, run_length, Nat.sub_diag, firstn_O, app_nil_r.
  rewrite <- (run_length k s) at 2. symmetry. apply firstn_all.
Qed.

Lemma run_beyond k n s :
  state_ (fst (run n s)) <> SENDING -> (n <= k)%nat ->
  run k s = (fst (run n s), snd (run n s) ++ repeat [] (k - n)).
Proof.
  intros Hst Hk. replace k with (n + (k - n))%nat at 1 by lia.
  rewrite run_add, (run_not_sending (k - n) _ Hst). reflexivity.
Qed.

(** Any number of ticks after an accepted [send]: the frames of the job,
    then nothing. *)
Lemma send_run_any T c n s k :
  state_ s = IDLE -> 1 <= n <= 64 -> 0 <= c < 2 ^ type_bits T ->
  snd (run k (after_send T c n s))
  = firstn k (bit_frames true (code_bits c n)) ++ repeat [] (k - job_ticks n).
Proof.
  intros Hidle Hn Hc.
  destruct (send_frames T c n s Hidle Hn Hc) as (E & St & _).
  destruct (Nat.le_gt_cases k (job_ticks n)) as [Hle|Hgt].
  - rewrite (run_prefix k (job_ticks n)) by assumption. rewrite E.
    replace (k - job_ticks n)%nat with 0%nat by lia.
    cbn [repeat]. now rewrite app_nil_r.
  - rewrite (run_beyond k (job_ticks n)) by (try congruence; lia).
    cbn [snd]. rewrite E. f_equal.
    rewrite firstn_all2; [reflexivity|].
    rewrite <- E, run_length. lia.
Qed.

Lemma code_bits_split c n :
  32 < n ->
  code_bits c n
  = bits_from (Z.shiftr c 32) (n - 33) (Z.to_nat (n - 32))
    ++ bits_from (wrap 32 c) 31 32.
Proof.
  intros Hn. unfold code_bits.
  replace (Z.to_nat n) with (Z.to_nat (n - 32) + 32)%nat by lia.
  rewrite bits_from_app. f_equal.
  - symmetry. replace (n - 1) with (n - 33 + 32) by lia.
    apply bits_from_ext. intros i Hi. apply Z.shiftr_spec. lia.
  - symmetry. replace (n - 1 - Z.of_nat (Z.to_nat (n - 32))) with (31 + 0) by lia.
    apply bits_from_ext. intros i Hi. rewrite Z.add_0_r.
    apply Z.mod_pow2_bits_low. lia.
Qed.

Lemma tick_switch_phase0_mask s :
  send_pos_ s mod 4 = 0 ->
  mask_bit_ (fst (fst (tick_switch s))) = Z.shiftr (mask_bit_ s) 1.
Proof.
  destruct s as [st p0 p1 c ext m pos n]. cbn. intros Hmod.
  unfold tick_switch, write_bit, pin_call. cbn -[Z.shiftr]. rewrite Hmod.
  cbn -[Z.shiftr]. destruct (Z.land c m =? 0); reflexivity.
Qed.

Lemma wrap_minus_one : wrap size_bits (0 - 1) = 2 ^ size_bits - 1.
Proof.
  assert (0 < 2 ^ size_bits) by (apply Z.pow_pos_nonneg; lia).
  unfold wrap. symmetry. apply (Z.mod_unique_pos _ _ (-1)); lia.
Qed.

Lemma pow2_size_big : 65536 <= 2 ^ size_bits.
Proof. change 65536 with (2 ^ 16). apply pow2_le_mono. lia. Qed.

(** * The claims *)

(** C1: after an accepted [send] of [n] bits ([1 <= n <= 64]) the ticks
    make exactly the pin calls of [bit_frames]: in phase 0 of each bit
    one [set_low], on D1 for a 1 and on D0 for a 0, the bits taken from
    the code most significant first (the first phase 0 switches both
    lines to output beforehand); in phase 1 [set_high] on both lines;
    nothing in phases 2 and 3; and phase 1 of the last bit also sets
    both lines to input and leaves the object [IDLE].  The object is
    [SENDING] before each of these ticks, and they are
    [4 * (n - 1) + 2] in number. *)
Theorem tick_pulse_sequence T c n s :
  state_ s = IDLE -> 1 <= n <= 64 -> 0 <= c < 2 ^ type_bits T ->
  fst (fst (send T c n s)) = true
  /\ snd (run (Z.to_nat (4 * (n - 1) + 2)) (after_send T c n s))
     = bit_frames true (code_bits c n)
  /\ (forall k, (k < Z.to_nat (4 * (n - 1) + 2))%nat ->
        state_ (fst (run k (after_send T c n s))) = SENDING)
  /\ state_ (fst (run (Z.to_nat (4 * (n - 1) + 2)) (after_send T c n s))) = IDLE
  /\ pins_input (fst (run (Z.to_nat (4 * (n - 1) + 2)) (after_send T c n s))).
Proof.
  intros Hidle Hn Hc. fold (job_ticks n).
  destruct (send_frames T c n s Hidle Hn Hc) as (E & St & Pins).
  split; [now rewrite send_idle|].
  split; [exact E|]. split; [|split; assumption].
  intros k Hk. apply (sending_until_last (job_ticks n)); [|exact Hk].
  assert (Hn' : 1 <= n < 2 ^ size_bits) by (pose proof pow2_size_big; lia).
  destruct (send_job T c n s Hidle Hn') as (E' & _).
  rewrite E'. replace (Z.to_nat n) with (S (Z.to_nat (n - 1))) by lia.
  rewrite last_job_frames. discriminate.
Qed.

(** C2: [add_parity] is to return
    [(code << 1) | (even_parity << (BITS-1)) | odd_parity] for every
    raw code.  It does not for [add_parity<34>] of the 32-bit argument
    [0x80000000]: [code << 1] is computed in the argument type, bit 31
    is lost, and the result is [0x200000001], where the formula gives
    [0x300000001] (odd and even parity are both 1).  The same value
    passed in a 64-bit argument, as [code] passes it, gives the
    formula's word. *)
Theorem add_parity_narrow_shift_lost :
  add_parity 34 UInt32 (2 ^ 31) = 2 ^ 33 + 1
  /\ Z.lor (Z.lor (Z.shiftl (2 ^ 31) 1)
                  (Z.shiftl (Z.b2z (even_parity 34 (2 ^ 31))) (34 - 1)))
           (Z.b2z (odd_parity 34 (2 ^ 31)))
     = 2 ^ 33 + 2 ^ 32 + 1
  /\ add_parity 34 UInt32 (2 ^ 31)
     <> Z.lor (Z.lor (Z.shiftl (2 ^ 31) 1)
                     (Z.shiftl (Z.b2z (even_parity 34 (2 ^ 31))) (34 - 1)))
              (Z.b2z (odd_parity 34 (2 ^ 31)))
  /\ add_parity 34 UInt64 (2 ^ 31) = 2 ^ 33 + 2 ^ 32 + 1.
Proof.
  rewrite !add_parity_closed by lia.
  split; [reflexivity|]. split; [reflexivity|]. split; [|reflexivity].
  vm_compute. discriminate.
Qed.

(** C3: [send] on an object that is not [IDLE] returns [false], leaves
    every member as it was (code words, mask, position and remaining-bit
    counters, state, pins) and calls nothing on either line. *)
Theorem send_rejected_while_busy T c n s :
  state_ s <> IDLE ->
  send T c n s = (false, s, [])
  /\ code_ (after_send T c n s) = code_ s
  /\ code_ext_ (after_send T c n s) = code_ext_ s
  /\ mask_bit_ (after_send T c n s) = mask_bit_ s
  /\ send_pos_ (after_send T c n s) = send_pos_ s
  /\ send_bits_ (after_send T c n s) = send_bits_ s
  /\ state_ (after_send T c n s) = state_ s.
Proof.
  intros H. unfold after_send. rewrite (send_busy T c n s H).
  repeat split; reflexivity.
Qed.

(** C4: an accepted [send] of [n] bits with [32 < n <= 64] stores the
    high word of the code in [code_], the low word in [code_ext_] and
    the mask [1 << (n - 1 - 32)].  At the start of each of the first
    [n - 32] bits the active word is still the high word and the mask
    has moved one place down; the tick that sends the last of them
    shifts the mask to 0 and then sets it to the top bit of a 32-bit
    word and makes [code_ext_] the active word.  The job pulses the
    [n - 32] bits of the high word and then the 32 bits of the low
    word, [n] pulses in all. *)
Theorem wide_code_carry_over T c n s :
  state_ s = IDLE -> 32 < n <= 64 -> 0 <= c < 2 ^ type_bits T ->
  (code_ (after_send T c n s) = Z.shiftr c 32
   /\ code_ext_ (after_send T c n s) = wrap 32 c
   /\ mask_bit_ (after_send T c n s) = 2 ^ (n - 1 - 32))
  /\ (forall j, 0 <= j <= n - 33 ->
        code_ (fst (run (Z.to_nat (4 * j)) (after_send T c n s))) = Z.shiftr c 32
        /\ mask_bit_ (fst (run (Z.to_nat (4 * j)) (after_send T c n s)))
           = 2 ^ (n - 33 - j))
  /\ (mask_bit_ (fst (fst (tick_switch
         (fst (run (Z.to_nat (4 * (n - 33))) (after_send T c n s)))))) = 0
      /\ mask_bit_ (fst (tick
           (fst (run (Z.to_nat (4 * (n - 33))) (after_send T c n s))))) = 2 ^ 31
      /\ code_ (fst (tick
           (fst (run (Z.to_nat (4 * (n - 33))) (after_send T c n s))))) = wrap 32 c)
  /\ snd (run (Z.to_nat (4 * (n - 1) + 2)) (after_send T c n s))
     = bit_frames true
         (bits_from (Z.shiftr c 32) (n - 33) (Z.to_nat (n - 32))
          ++ bits_from (wrap 32 c) 31 32)
  /\ pulses (snd (run (Z.to_nat (4 * (n - 1) + 2)) (after_send T c n s)))
     = Z.to_nat n.
Proof.
  intros Hidle Hn Hc. fold (job_ticks n).
  pose proof pow2_size_big as Hbig.
  assert (Hs0 : at_bit_start (after_send T c n s)
                /\ send_bits_ (after_send T c n s) = n
                /\ code_ (after_send T c n s) = Z.shiftr c 32
                /\ code_ext_ (after_send T c n s) = wrap 32 c
                /\ mask_bit_ (after_send T c n s) = 2 ^ (n - 1 - 32)).
  { unfold after_send. rewrite (send_idle T c n s Hidle).
    cbn [fst snd]. destruct (Z.gtb_spec n 32) as [_|]; [|lia].
    rewrite high_word by assumption. rewrite shl_1_pow2 by lia.
    repeat split; cbn; lia. }
  destruct Hs0 as (Hs0 & Hb0 & Hc0 & Hx0 & Hm0).
  set (s0 := after_send T c n s) in *.
  assert (Hbits : forall j, 0 <= j <= n - 33 ->
            at_bit_start (fst (run (Z.to_nat (4 * j)) s0))
            /\ mask_bit_ (fst (run (Z.to_nat (4 * j)) s0)) = 2 ^ (n - 33 - j)
            /\ code_ (fst (run (Z.to_nat (4 * j)) s0)) = Z.shiftr c 32
            /\ code_ext_ (fst (run (Z.to_nat (4 * j)) s0)) = wrap 32 c).
  { intros j Hj.
    replace (Z.to_nat (4 * j)) with (4 * Z.to_nat j)%nat by lia.
    destruct (run_bits (Z.to_nat j) s0 (n - 1 - 32) Hs0 Hm0 ltac:(lia) ltac:(lia))
      as (A & B & C & D & _).
    rewrite B, C, D. repeat split; try apply A; try assumption.
    f_equal. lia. }
  split; [repeat split; assumption|].
  split; [intros j Hj; destruct (Hbits j Hj) as (_ & B & C & _); split; assumption|].
  split.
  - destruct (Hbits (n - 33) ltac:(lia)) as ((St & Hmod & Hpos) & B & C & D).
    replace (n - 33 - (n - 33)) with 0 in B by lia.
    set (sd := fst (run (Z.to_nat (4 * (n - 33))) s0)) in *.
    destruct (tick_phase0 sd St Hmod) as (_ & _ & _ & _ & _ & M & C').
    rewrite (tick_switch_phase0_mask sd Hmod), M, C', B, D.
    repeat split; reflexivity.
  - destruct (send_frames T c n s Hidle ltac:(lia) Hc) as (E & _).
    destruct (send_job T c n s Hidle ltac:(lia)) as (E' & _).
    fold s0 in E, E'. split.
    + rewrite E, code_bits_split by lia. reflexivity.
    + rewrite E'. apply pulses_job_frames.
Qed.

(** C5, in the form the code satisfies: for even [BITS] ([2 <= BITS <= 64]) and every raw
    code that fits in [BITS - 2] bits, passed in a type of at least
    [BITS - 1] bits (as [code] does), [add_parity] shifted right by 1
    is the raw code with the even parity bit on top of it, at bit
    [BITS - 2]; masked to [BITS - 2] bits it equals the raw code. *)
Theorem add_parity_shift_masked BITS T c :
  Z.even BITS = true -> 2 <= BITS <= 64 -> BITS - 1 <= type_bits T ->
  0 <= c < 2 ^ (BITS - 2) ->
  Z.shiftr (add_parity BITS T c) 1
  = Z.lor c (Z.shiftl (Z.b2z (even_parity BITS c)) (BITS - 2))
  /\ wrap (BITS - 2) (Z.shiftr (add_parity BITS T c) 1) = c.
Proof.
  intros _ HB HT Hc.
  assert (Hshift : wrap (type_bits (R_type BITS)) (wrap (type_bits T) (Z.shiftl c 1))
                   = Z.shiftl c 1).
  { assert (Hs : 0 <= Z.shiftl c 1 < 2 ^ (BITS - 2 + 1))
      by (apply shiftl_lt_pow2; lia).
    replace (BITS - 2 + 1) with (BITS - 1) in Hs by lia.
    assert (2 ^ (BITS - 1) <= 2 ^ type_bits T) by (apply pow2_le_mono; lia).
    assert (2 ^ (BITS - 1) <= 2 ^ type_bits (R_type BITS)).
    { apply pow2_le_mono. destruct (R_bits_cases BITS) as [[? ->]|[? ->]]; lia. }
    rewrite (wrap_small (type_bits T)) by lia. apply wrap_small. lia. }
  assert (E : Z.shiftr (add_parity BITS T c) 1
              = Z.lor c (Z.shiftl (Z.b2z (even_parity BITS c)) (BITS - 2))).
  { rewrite add_parity_closed by assumption. unfold add_parity_spec.
    rewrite Hshift, !Z.shiftr_lor.
    rewrite !Z.shiftr_shiftl_l by lia.
    replace (1 - 1) with 0 by lia. rewrite Z.shiftl_0_r.
    replace (BITS - 1 - 1) with (BITS - 2) by lia.
    replace (Z.shiftr (Z.b2z (odd_parity BITS c)) 1) with 0
      by (destruct (odd_parity BITS c); reflexivity).
    apply Z.lor_0_r. }
  split; [exact E|].
  rewrite E. unfold wrap. apply Z.bits_inj'. intros i Hi.
  destruct (Z.ltb_spec i (BITS - 2)) as [Hlt|Hge].
  - rewrite Z.mod_pow2_bits_low, Z.lor_spec, Z.shiftl_spec_low by lia.
    apply orb_false_r.
  - rewrite Z.mod_pow2_bits_high by lia.
    symmetry. apply (testbit_above (BITS - 2)); lia.
Qed.

(** C6: in every state reachable by [send] and [tick] calls from a
    freshly constructed transmitter the two lines are never both driven
    low; a tick makes at most one [set_low] call; a phase-0 tick makes
    exactly one, on D1 when [code_ & mask_bit_] is not 0 and on D0 when
    it is, a tick in any other phase makes none, and the phase-1 tick
    leaves both lines written high again. *)
Theorem lines_never_both_low s :
  reachable s ->
  ~ (driven_low (d0_pin_ s) /\ driven_low (d1_pin_ s))
  /\ (length (set_low_calls (snd (tick s))) <= 1)%nat
  /\ (state_ s = SENDING -> send_pos_ s mod 4 = 0 ->
      set_low_calls (snd (tick s))
      = [(bit_line (current_bit (code_ s) (mask_bit_ s)), SetLow)])
  /\ (state_ s = SENDING -> send_pos_ s mod 4 <> 0 ->
      set_low_calls (snd (tick s)) = [])
  /\ (state_ s = SENDING -> send_pos_ s mod 4 = 1 ->
      pin_value (d0_pin_ (fst (tick s))) = true
      /\ pin_value (d1_pin_ (fst (tick s))) = true).
Proof.
  intros Hr. pose proof (reachable_lines_inv s Hr) as Hinv.
  split; [apply lines_inv_not_both_low, Hinv|].
  destruct (tick_set_low_calls s) as (A & B & C).
  split; [exact A|]. split; [exact B|]. split; [exact C|].
  intros Hst Hmod.
  destruct (lines_inv_tick s Hinv) as [_ [Hv|(St & Hm & _)]]; [exact Hv|].
  exfalso.
  destruct Hinv as [Hpos _].
  destruct (phase_step _ 1 Hpos Hmod ltac:(lia)) as [W Q].
  destruct (Z.eq_dec (wrap size_bits (send_bits_ s - 1)) 0) as [Hz|Hnz].
  - destruct (tick_phase1_last s Hst Hmod Hz) as (_ & Hidle & _). congruence.
  - destruct s as [st p0 p1 c0 ext m pos k]. cbn in *. subst st.
    revert Hm. unfold tick, tick_switch, carry_over, and_then, pin_call.
    step_tick; try lia; try contradiction.
    all: cbn -[Z.modulo wrap Z.add]; rewrite W, Q; lia.
Qed.

(** C7: for a facility code in [0, 255] and an id that fits in
    [BITS - 10] bits ([10 <= BITS <= 64]) the raw code [code] builds
    before it attaches the parity is exactly
    [(facility << (BITS - 10)) | id], and [code] is [add_parity] of it. *)
Theorem code_packs_facility_and_id BITS facility id :
  10 <= BITS <= 64 -> 0 <= facility <= 255 -> 0 <= id < 2 ^ (BITS - 10) ->
  raw_code BITS facility id = Z.lor (Z.shiftl facility (BITS - 10)) id
  /\ code BITS facility id
     = add_parity BITS (R_type BITS) (Z.lor (Z.shiftl facility (BITS - 10)) id).
Proof.
  intros HB Hf Hid.
  assert (E : raw_code BITS facility id = Z.lor (Z.shiftl facility (BITS - 10)) id).
  { unfold raw_code.
    assert (HR : BITS - 2 < type_bits (R_type BITS) /\ 32 <= type_bits (R_type BITS))
      by (destruct (R_bits_cases BITS) as [[? ->]|[? ->]]; lia).
    assert (Hpow : 2 ^ (BITS - 2) <= 2 ^ type_bits (R_type BITS))
      by (apply pow2_le_mono; lia).
    assert (Hsh : 0 <= Z.shiftl facility (BITS - 10) < 2 ^ (8 + (BITS - 10)))
      by (apply shiftl_lt_pow2; [lia|lia|change (2 ^ 8) with 256; lia]).
    replace (8 + (BITS - 10)) with (BITS - 2) in Hsh by lia.
    assert (Hid' : 0 <= id < 2 ^ (BITS - 2)).
    { split; [lia|]. apply Z.lt_le_trans with (2 ^ (BITS - 10)); [lia|].
      apply pow2_le_mono. lia. }
    cbv zeta. rewrite (wrap_small 8 facility) by (change (2 ^ 8) with 256; lia).
    rewrite (wrap_small _ facility).
    2:{ split; [lia|]. apply Z.lt_le_trans with (2 ^ 32); [change (2 ^ 32) with 4294967296; lia|].
        apply pow2_le_mono. lia. }
    rewrite wrap_size_small by (change (2 ^ 16) with 65536; lia).
    rewrite shl_in_range by lia.
    apply wrap_small.
    pose proof (lor_lt_pow2 (BITS - 2) _ _ ltac:(lia) Hsh Hid'). lia. }
  split; [exact E|]. unfold code. now rewrite E.
Qed.

(** C8: two idle transmitters that differ in whatever earlier jobs left
    in their members and pins, given the same [send] of [n] bits
    ([1 <= n <= 64]), make the same pin calls at every following tick
    and are idle again after the same number of ticks; the calls are
    those of the code's own bits, so the stale extension word that the
    last bit of a narrow job copies into [code_] is never sent. *)
Theorem send_history_independent T c n s1 s2 :
  state_ s1 = IDLE -> state_ s2 = IDLE ->
  1 <= n <= 64 -> 0 <= c < 2 ^ type_bits T ->
  (forall k, snd (run k (after_send T c n s1)) = snd (run k (after_send T c n s2)))
  /\ snd (run (Z.to_nat (4 * (n - 1) + 2)) (after_send T c n s1))
     = bit_frames true (code_bits c n)
  /\ state_ (fst (run (Z.to_nat (4 * (n - 1) + 2)) (after_send T c n s1))) = IDLE
  /\ state_ (fst (run (Z.to_nat (4 * (n - 1) + 2)) (after_send T c n s2))) = IDLE.
Proof.
  intros H1 H2 Hn Hc. fold (job_ticks n).
  destruct (send_frames T c n s1 H1 Hn Hc) as (E1 & St1 & _).
  destruct (send_frames T c n s2 H2 Hn Hc) as (_ & St2 & _).
  split; [|repeat split; assumption].
  intros k. now rewrite !send_run_any.
Qed.

(** C9: [send(code, 0)] on an idle object returns [true] and starts a
    job whose remaining-bit counter is 0.  The first phase-1 tick
    decrements it to the largest value of [size_t], so after two ticks
    the object is still sending; it stays so for
    [4 * (2^size_bits - 1) + 2] ticks and pulses [2^size_bits] bits
    before it is idle again. *)
Theorem send_zero_bits_wraps T c s :
  state_ s = IDLE ->
  fst (fst (send T c 0 s)) = true
  /\ state_ (after_send T c 0 s) = SENDING
  /\ send_bits_ (after_send T c 0 s) = 0
  /\ state_ (fst (run 2 (after_send T c 0 s))) = SENDING
  /\ send_bits_ (fst (run 2 (after_send T c 0 s))) = 2 ^ size_bits - 1
  /\ (forall k, (k < Z.to_nat (4 * (2 ^ size_bits - 1) + 2))%nat ->
        state_ (fst (run k (after_send T c 0 s))) = SENDING)
  /\ state_ (fst (run (Z.to_nat (4 * (2 ^ size_bits - 1) + 2)) (after_send T c 0 s)))
     = IDLE
  /\ pulses (snd (run (Z.to_nat (4 * (2 ^ size_bits - 1) + 2)) (after_send T c 0 s)))
     = Z.to_nat (2 ^ size_bits).
Proof.
  intros Hidle. pose proof pow2_size_big as Hbig.
  assert (Hs0 : at_bit_start (after_send T c 0 s)
                /\ send_bits_ (after_send T c 0 s) = 0).
  { unfold after_send. rewrite (send_idle T c 0 s Hidle).
    repeat split; cbn; lia. }
  destruct Hs0 as (Hs0 & Hb0).
  set (s0 := after_send T c 0 s) in *.
  set (total := Z.to_nat (4 * (2 ^ size_bits - 1) + 2)).
  assert (Hw : wrap size_bits (send_bits_ s0 - 1) = 2 ^ size_bits - 1)
    by (rewrite Hb0; apply wrap_minus_one).
  destruct (run_bit s0 Hs0 ltac:(rewrite Hw; lia)) as (E4 & Hs4 & _ & N4 & _).
  rewrite Hw in N4.
  destruct (job_run (Z.to_nat (2 ^ size_bits - 2)) (fst (run 4 s0)) Hs4
              ltac:(rewrite N4; lia) ltac:(lia)) as (EJ & StJ & _).
  assert (Etot : total = (4 + (4 * Z.to_nat (2 ^ size_bits - 2) + 2))%nat)
    by (unfold total; lia).
  assert (Hlast : last (snd (run total s0)) [] <> []).
  { rewrite Etot, run_add. cbn [snd]. rewrite EJ.
    rewrite last_app_nonempty.
    - rewrite last_job_frames. discriminate.
    - cbn [job_frames]. destruct (Z.to_nat (2 ^ size_bits - 2)); discriminate. }
  split; [now rewrite send_idle|].
  split; [apply Hs0|]. split; [exact Hb0|].
  split; [apply (sending_until_last total); [exact Hlast|unfold total; lia]|].
  split.
  - destruct Hs0 as (St & Hmod & Hpos).
    destruct (tick_phase0 s0 St Hmod) as (_ & St1 & P1 & N1 & _ & M1 & _).
    destruct (phase_step _ 0 Hpos Hmod ltac:(lia)) as [W1 Q1].
    rewrite W1 in P1.
    destruct (tick_phase1 (fst (tick s0)) St1 ltac:(rewrite P1; exact Q1)
                ltac:(rewrite M1; apply next_mask_nonzero)
                ltac:(rewrite N1, Hw; lia)) as (_ & _ & _ & N2 & _).
    rewrite !run_S. cbn [run fst]. rewrite N2, N1. exact Hw.
  - split; [intros k Hk; apply (sending_until_last total); assumption|].
    split.
    + rewrite Etot, run_add. exact StJ.
    + rewrite Etot, run_add. cbn [snd]. rewrite pulses_app, EJ, E4, pulses_job_frames.
      assert (P1 : pulses [phase0_events (send_pos_ s0 =? 0)
                             (current_bit (code_ s0) (mask_bit_ s0));
                           phase1_events false; []; []] = 1%nat)
        by (destruct (send_pos_ s0 =? 0), (current_bit (code_ s0) (mask_bit_ s0));
            reflexivity).
      rewrite P1. lia.
Qed.

(** C10: whenever the object is [IDLE] both pins are inputs.  This
    holds at construction, it is kept by every [send] and by every
    [tick] from any state in which it holds, and so it holds in every
    reachable state. *)
Theorem idle_pins_floating :
  idle_floating initial
  /\ (forall s, idle_floating s ->
        (forall T c n, idle_floating (after_send T c n s))
        /\ idle_floating (fst (tick s)))
  /\ (forall s, reachable s -> idle_floating s).
Proof.
  assert (Hinit : idle_floating initial) by (intros _; split; reflexivity).
  assert (Hstep : forall s, idle_floating s ->
            (forall T c n, idle_floating (after_send T c n s))
            /\ idle_floating (fst (tick s))).
  { intros s Hs. split.
    - intros T c n. apply idle_floating_send, Hs.
    - apply idle_floating_tick, Hs. }
  split; [exact Hinit|]. split; [exact Hstep|].
  induction 1 as [|T c n s _ IH|s _ IH].
  - exact Hinit.
  - apply Hstep, IH.
  - apply Hstep, IH.
Qed.

(** * Further properties *)

(** ** Encoder: the word on the wire *)

Lemma testbit_b2z b i : 0 <= i -> Z.testbit (Z.b2z b) i = b && (i =? 0).
Proof.
  intros Hi. destruct b; cbn [Z.b2z andb].
  - change 1 with (2 ^ 0). rewrite Z.pow2_bits_eqb by lia. apply Z.eqb_sym.
  - apply Z.bits_0.
Qed.

(** When the argument type does not lose the shifted code, the word is
    the plain OR of its three parts. *)
Lemma add_parity_wide BITS T c :
  2 <= BITS <= 64 -> BITS - 1 <= type_bits T -> 0 <= c < 2 ^ (BITS - 2) ->
  add_parity BITS T c
  = Z.lor (Z.lor (Z.shiftl c 1) (Z.shiftl (Z.b2z (even_parity BITS c)) (BITS - 1)))
          (Z.b2z (odd_parity BITS c)).
Proof.
  intros HB HT Hc. rewrite add_parity_closed by assumption.
  unfold add_parity_spec. do 2 f_equal.
  assert (Hs : 0 <= Z.shiftl c 1 < 2 ^ (BITS - 2 + 1))
    by (apply shiftl_lt_pow2; lia).
  replace (BITS - 2 + 1) with (BITS - 1) in Hs by lia.
  assert (2 ^ (BITS - 1) <= 2 ^ type_bits T) by (apply pow2_le_mono; lia).
  assert (2 ^ (BITS - 1) <= 2 ^ type_bits (R_type BITS)).
  { apply pow2_le_mono. destruct (R_bits_cases BITS) as [[? ->]|[? ->]]; lia. }
  rewrite (wrap_small (type_bits T)) by lia. apply wrap_small. lia.
Qed.

Lemma add_parity_testbit BITS T c :
  2 <= BITS <= 64 -> BITS - 1 <= type_bits T -> 0 <= c < 2 ^ (BITS - 2) ->
  Z.testbit (add_parity BITS T c) 0 = odd_parity BITS c
  /\ Z.testbit (add_parity BITS T c) (BITS - 1) = even_parity BITS c
  /\ (forall i, 0 <= i < BITS - 2 ->
        Z.testbit (add_parity BITS T c) (i + 1) = Z.testbit c i).
Proof.
  intros HB HT Hc. rewrite add_parity_wide by assumption.
  split; [|split].
  - rewrite !Z.lor_spec, !Z.shiftl_spec_low, testbit_b2z by lia.
    cbn. apply andb_true_r.
  - rewrite !Z.lor_spec, !Z.shiftl_spec, !testbit_b2z by lia.
    replace (BITS - 1 - (BITS - 1)) with 0 by lia.
    rewrite (testbit_above (BITS - 2) c) by lia.
    destruct (Z.eqb_spec (BITS - 1) 0); [lia|].
    cbn. now rewrite andb_true_r, andb_false_r, orb_false_r.
  - intros i Hi.
    rewrite !Z.lor_spec, Z.shiftl_spec, Z.shiftl_spec_low, testbit_b2z by lia.
    replace (i + 1 - 1) with i by lia.
    destruct (Z.eqb_spec (i + 1) 0); [lia|].
    now rewrite andb_false_r, !orb_false_r.
Qed.

Lemma add_parity_range BITS T c :
  2 <= BITS <= 64 -> 0 <= c < 2 ^ (BITS - 2) ->
  0 <= add_parity BITS T c < 2 ^ BITS.
Proof.
  intros HB Hc. rewrite add_parity_closed by assumption.
  unfold add_parity_spec.
  assert (Hs : 0 <= Z.shiftl c 1 < 2 ^ (BITS - 2 + 1))
    by (apply shiftl_lt_pow2; lia).
  replace (BITS - 2 + 1) with (BITS - 1) in Hs by lia.
  assert (Hlt : 2 ^ (BITS - 1) < 2 ^ BITS) by (apply Z.pow_lt_mono_r; lia).
  assert (Hpos : forall b, 0 < 2 ^ type_bits b)
    by (intros b; apply Z.pow_pos_nonneg; destruct b; cbn; lia).
  assert (H1 : 0 <= wrap (type_bits T) (Z.shiftl c 1) <= Z.shiftl c 1).
  { unfold wrap. split; [apply Z.mod_pos_bound, Hpos|apply Z.mod_le; [lia|apply Hpos]]. }
  assert (H2 : 0 <= wrap (type_bits (R_type BITS)) (wrap (type_bits T) (Z.shiftl c 1))
               <= Z.shiftl c 1).
  { unfold wrap at 1. split; [apply Z.mod_pos_bound, Hpos|].
    apply Z.le_trans with (wrap (type_bits T) (Z.shiftl c 1)); [|lia].
    apply Z.mod_le; [lia|apply Hpos]. }
  apply lor_lt_pow2; [lia| |].
  - apply lor_lt_pow2; [lia|lia|].
    destruct (even_parity BITS c); cbn [Z.b2z].
    + rewrite Z.shiftl_1_l. lia.
    + rewrite Z.shiftl_0_l. lia.
  - assert (2 ^ 1 <= 2 ^ BITS) by (apply pow2_le_mono; lia).
    change (2 ^ 1) with 2 in *.
    destruct (odd_parity BITS c); cbn [Z.b2z]; lia.
Qed.

Lemma count_bits_ext a b d n : forall lo,
  (forall i, lo <= i < lo + Z.of_nat n -> Z.testbit a i = Z.testbit b (i + d)) ->
  count_bits a lo n = count_bits b (lo + d) n.
Proof.
  induction n as [|n IH]; intros lo H; [reflexivity|].
  cbn [count_bits]. rewrite H by lia. f_equal.
  replace (lo + d + 1) with (lo + 1 + d) by lia.
  apply IH. intros i Hi. apply H. lia.
Qed.

Lemma count_bits_snoc a n : forall lo,
  count_bits a lo (S n)
  = (count_bits a lo n + (if Z.testbit a (lo + Z.of_nat n) then 1 else 0))%nat.
Proof.
  induction n as [|n IH]; intros lo.
  - cbn [count_bits Z.of_nat]. rewrite Z.add_0_r. lia.
  - change (count_bits a lo (S (S n)))
      with ((if Z.testbit a lo then 1 else 0) + count_bits a (lo + 1) (S n))%nat.
    rewrite IH. cbn [count_bits].
    replace (lo + 1 + Z.of_nat n) with (lo + Z.of_nat (S n)) by lia. lia.
Qed.

Lemma odd_group_count c h :
  Nat.odd (count_bits c 0 h + Nat.b2n (xor_bits true c 0 h)) = true.
Proof.
  rewrite xor_bits_count.
  destruct (Nat.odd (count_bits c 0 h)) eqn:E; cbn [xorb negb Nat.b2n].
  - now rewrite Nat.add_0_r.
  - now rewrite Nat.add_1_r, Nat.odd_succ, <- Nat.negb_odd, E.
Qed.

Lemma even_group_count c lo h :
  Nat.even (count_bits c lo h + Nat.b2n (xor_bits false c lo h)) = true.
Proof.
  rewrite xor_bits_count.
  destruct (Nat.odd (count_bits c lo h)) eqn:E; cbn [xorb negb Nat.b2n].
  - now rewrite Nat.add_1_r, Nat.even_succ.
  - now rewrite Nat.add_0_r, <- Nat.negb_odd, E.
Qed.

Lemma even_half BITS :
  Z.even BITS = true -> 2 <= BITS ->
  BITS = 2 * (BITS / 2) /\ Z.to_nat (BITS / 2) = S (half_width BITS)
  /\ Z.of_nat (half_width BITS) = BITS / 2 - 1.
Proof.
  intros He HB. apply Z.even_spec in He. destruct He as [k Hk].
  assert (E : BITS / 2 = k) by (subst BITS; rewrite Z.mul_comm; apply Z.div_mul; lia).
  unfold half_width. rewrite E. lia.
Qed.

Lemma raw_code_lor BITS facility id :
  10 <= BITS <= 64 -> 0 <= facility <= 255 ->
  0 <= id < 2 ^ type_bits (R_type BITS) ->
  raw_code BITS facility id = Z.lor (Z.shiftl facility (BITS - 10)) id.
Proof.
  intros HB Hf Hid. unfold raw_code. cbv zeta.
  assert (HR : BITS - 2 < type_bits (R_type BITS) /\ 32 <= type_bits (R_type BITS))
    by (destruct (R_bits_cases BITS) as [[? ->]|[? ->]]; lia).
  assert (Hpow : 2 ^ (BITS - 2) <= 2 ^ type_bits (R_type BITS))
    by (apply pow2_le_mono; lia).
  assert (Hsh : 0 <= Z.shiftl facility (BITS - 10) < 2 ^ (8 + (BITS - 10)))
    by (apply shiftl_lt_pow2; [lia|lia|change (2 ^ 8) with 256; lia]).
  replace (8 + (BITS - 10)) with (BITS - 2) in Hsh by lia.
  rewrite (wrap_small 8 facility) by (change (2 ^ 8) with 256; lia).
  rewrite (wrap_small _ facility).
  2:{ split; [lia|]. apply Z.lt_le_trans with (2 ^ 32);
      [change (2 ^ 32) with 4294967296; lia|]. apply pow2_le_mono. lia. }
  rewrite wrap_size_small by (change (2 ^ 16) with 65536; lia).
  rewrite shl_in_range by lia.
  apply wrap_small. apply lor_lt_pow2; lia.
Qed.

Lemma raw_code_range BITS facility id :
  10 <= BITS <= 64 -> 0 <= facility <= 255 -> 0 <= id < 2 ^ (BITS - 10) ->
  raw_code BITS facility id = Z.lor (Z.shiftl facility (BITS - 10)) id
  /\ 0 <= Z.lor (Z.shiftl facility (BITS - 10)) id < 2 ^ (BITS - 2)
  /\ BITS - 1 <= type_bits (R_type BITS).
Proof.
  intros HB Hf Hid.
  assert (HR : BITS - 1 <= type_bits (R_type BITS))
    by (destruct (R_bits_cases BITS) as [[? ->]|[? ->]]; lia).
  assert (Hsh : 0 <= Z.shiftl facility (BITS - 10) < 2 ^ (8 + (BITS - 10)))
    by (apply shiftl_lt_pow2; [lia|lia|change (2 ^ 8) with 256; lia]).
  replace (8 + (BITS - 10)) with (BITS - 2) in Hsh by lia.
  assert (H10 : 2 ^ (BITS - 10) <= 2 ^ (BITS - 2)) by (apply pow2_le_mono; lia).
  assert (H2R : 2 ^ (BITS - 2) <= 2 ^ type_bits (R_type BITS))
    by (apply pow2_le_mono; lia).
  split; [apply raw_code_lor; lia|]. split; [|exact HR].
  apply lor_lt_pow2; lia.
Qed.

(** X1: for a raw code that fits in [BITS - 2] bits the word
    [add_parity] returns fits in [BITS] bits, whatever the argument
    type. *)
Theorem add_parity_fits_width BITS T c :
  Z.even BITS = true -> 2 <= BITS <= 64 -> 0 <= c < 2 ^ (BITS - 2) ->
  0 <= add_parity BITS T c < 2 ^ BITS.
Proof. intros _ HB Hc. apply add_parity_range; assumption. Qed.

(** X2: in the word [add_parity] returns, bit 0 is the odd parity, bit
    [BITS - 1] is the even parity and bit [i + 1] is bit [i] of the raw
    code, for a raw code of [BITS - 2] bits passed in a type of at least
    [BITS - 1] bits. *)
Theorem add_parity_bit_layout BITS T c :
  Z.even BITS = true -> 2 <= BITS <= 64 -> BITS - 1 <= type_bits T ->
  0 <= c < 2 ^ (BITS - 2) ->
  Z.testbit (add_parity BITS T c) 0 = odd_parity BITS c
  /\ Z.testbit (add_parity BITS T c) (BITS - 1) = even_parity BITS c
  /\ (forall i, 0 <= i < BITS - 2 ->
        Z.testbit (add_parity BITS T c) (i + 1) = Z.testbit c i).
Proof. intros _ HB HT Hc. apply add_parity_testbit; assumption. Qed.

(** X3: for even [BITS] ([2 <= BITS <= 64]) and a raw code that fits in
    [BITS - 2] bits, passed in a type of at least [BITS - 1] bits (as
    [code] does), the word [add_parity] returns passes the receiver's
    check: its low [BITS / 2] bits hold an odd number of ones and its
    high [BITS / 2] bits an even number. *)
Theorem wire_word_parity_check BITS T c :
  Z.even BITS = true -> 2 <= BITS <= 64 -> BITS - 1 <= type_bits T ->
  0 <= c < 2 ^ (BITS - 2) ->
  Nat.odd (count_bits (add_parity BITS T c) 0 (Z.to_nat (BITS / 2))) = true
  /\ Nat.even (count_bits (add_parity BITS T c) (BITS / 2) (Z.to_nat (BITS / 2)))
     = true.
Proof.
  intros He HB HT Hc.
  destruct (even_half BITS He ltac:(lia)) as (E2 & Eh & Ehz).
  destruct (add_parity_testbit BITS T c HB HT Hc) as (B0 & Btop & Bmid).
  rewrite Eh. split.
  - cbn [count_bits]. rewrite B0.
    rewrite <- (count_bits_ext c (add_parity BITS T c) 1 (half_width BITS) 0).
    + rewrite Nat.add_comm. apply odd_group_count.
    + intros i Hi. symmetry. apply Bmid. lia.
  - rewrite count_bits_snoc.
    replace (BITS / 2 + Z.of_nat (half_width BITS)) with (BITS - 1) by lia.
    rewrite Btop.
    replace (BITS / 2) with (BITS / 2 - 1 + 1) at 1 by lia.
    rewrite <- (count_bits_ext c (add_parity BITS T c) 1 (half_width BITS)
                  (BITS / 2 - 1)).
    + unfold even_parity. rewrite Ehz. apply even_group_count.
    + intros i Hi. symmetry. apply Bmid. lia.
Qed.

(** X4: the facility code and the id are read back from the word
    [code] returns: the facility from the eight bits below the even
    parity bit, the id from the [BITS - 10] bits above the odd parity
    bit. *)
Theorem code_fields_recovered BITS facility id :
  Z.even BITS = true -> 10 <= BITS <= 64 -> 0 <= facility <= 255 ->
  0 <= id < 2 ^ (BITS - 10) ->
  Z.shiftr (code BITS facility id) (BITS - 9) mod 2 ^ 8 = facility
  /\ Z.shiftr (code BITS facility id) 1 mod 2 ^ (BITS - 10) = id.
Proof.
  intros _ HB Hf Hid.
  destruct (raw_code_range BITS facility id HB Hf Hid) as (Eraw & Hraw & HR).
  unfold code. rewrite Eraw.
  destruct (add_parity_testbit BITS (R_type BITS) _ ltac:(lia) HR Hraw)
    as (_ & _ & Bmid).
  split; apply Z.bits_inj'; intros i Hi.
  - destruct (Z.ltb_spec i 8) as [Hlt|Hge].
    + rewrite Z.mod_pow2_bits_low, Z.shiftr_spec by lia.
      replace (i + (BITS - 9)) with (i + (BITS - 10) + 1) by lia.
      rewrite Bmid by lia.
      rewrite Z.lor_spec, Z.shiftl_spec by lia.
      replace (i + (BITS - 10) - (BITS - 10)) with i by lia.
      rewrite (testbit_above (BITS - 10) id) by lia. apply orb_false_r.
    + rewrite Z.mod_pow2_bits_high by lia.
      symmetry. apply (testbit_above 8); [change (2 ^ 8) with 256; lia|lia].
  - destruct (Z.ltb_spec i (BITS - 10)) as [Hlt|Hge].
    + rewrite Z.mod_pow2_bits_low, Z.shiftr_spec by lia.
      rewrite Bmid by lia.
      rewrite Z.lor_spec, Z.shiftl_spec_low by lia. reflexivity.
    + rewrite Z.mod_pow2_bits_high by lia.
      symmetry. apply (testbit_above (BITS - 10)); lia.
Qed.

(** X5: [code] does not check its id.  An id wider than its
    [BITS - 10] bit field (but within the result type) leaves its low
    bits in the id field and has its remaining bits OR-ed into the
    facility field of the raw code. *)
Theorem raw_code_id_overflow BITS facility id :
  10 <= BITS <= 64 -> 0 <= facility <= 255 ->
  0 <= id < 2 ^ type_bits (R_type BITS) ->
  Z.shiftr (raw_code BITS facility id) (BITS - 10)
  = Z.lor facility (Z.shiftr id (BITS - 10))
  /\ raw_code BITS facility id mod 2 ^ (BITS - 10) = id mod 2 ^ (BITS - 10).
Proof.
  intros HB Hf Hid. rewrite raw_code_lor by assumption. split.
  - rewrite Z.shiftr_lor, Z.shiftr_shiftl_l by lia.
    replace (BITS - 10 - (BITS - 10)) with 0 by lia.
    now rewrite Z.shiftl_0_r.
  - apply Z.bits_inj'. intros i Hi.
    destruct (Z.ltb_spec i (BITS - 10)) as [Hlt|Hge].
    + rewrite !Z.mod_pow2_bits_low, Z.lor_spec, Z.shiftl_spec_low by lia.
      reflexivity.
    + now rewrite !Z.mod_pow2_bits_high by lia.
Qed.

(** ** Transmitter: jobs and what surrounds them *)

Lemma send_sending_before T c n s k :
  state_ s = IDLE -> 1 <= n < 2 ^ size_bits -> (k < job_ticks n)%nat ->
  state_ (fst (run k (after_send T c n s))) = SENDING.
Proof.
  intros Hidle Hn Hk. apply (sending_until_last (job_ticks n)); [|exact Hk].
  destruct (send_job T c n s Hidle Hn) as (E & _).
  rewrite E. replace (Z.to_nat n) with (S (Z.to_nat (n - 1))) by lia.
  rewrite last_job_frames. discriminate.
Qed.

Lemma bits_from_false c n : forall hi,
  (forall i, hi - Z.of_nat n < i <= hi -> Z.testbit c i = false) ->
  bits_from c hi n = repeat false n.
Proof.
  induction n as [|n IH]; intros hi H; [reflexivity|].
  cbn [bits_from repeat]. rewrite H by lia. f_equal.
  apply IH. intros i Hi. apply H. lia.
Qed.

Lemma code_bits_mod c n : 0 <= n -> code_bits (c mod 2 ^ n) n = code_bits c n.
Proof.
  intros Hn. unfold code_bits.
  replace (n - 1) with (n - 1 + 0) at 2 by lia.
  apply bits_from_ext. intros i Hi. rewrite Z.add_0_r.
  apply Z.mod_pow2_bits_low. lia.
Qed.

(** X6: an accepted [send] of any width from 1 up to the largest
    [size_t] value, supported or not, comes back to [IDLE] with both
    pins floating after exactly [4 * (n - 1) + 2] ticks and [n] pulses,
    and not earlier. *)
Theorem job_terminates T c n s :
  state_ s = IDLE -> 1 <= n < 2 ^ size_bits ->
  state_ (fst (run (Z.to_nat (4 * (n - 1) + 2)) (after_send T c n s))) = IDLE
  /\ pins_input (fst (run (Z.to_nat (4 * (n - 1) + 2)) (after_send T c n s)))
  /\ (forall k, (k < Z.to_nat (4 * (n - 1) + 2))%nat ->
        state_ (fst (run k (after_send T c n s))) = SENDING)
  /\ pulses (snd (run (Z.to_nat (4 * (n - 1) + 2)) (after_send T c n s)))
     = Z.to_nat n.
Proof.
  intros Hidle Hn. fold (job_ticks n).
  destruct (send_job T c n s Hidle Hn) as (E & St & Pins).
  split; [exact St|]. split; [exact Pins|]. split.
  - intros k Hk. apply send_sending_before; assumption.
  - rewrite E. apply pulses_job_frames.
Qed.

(** X7: a [send] attempted at any tick of a running job is refused and
    does not disturb it: the pin calls made before the attempt followed
    by those made after it are those of the running job's code, and the
    job ends when it would have. *)
Theorem busy_send_leaves_job T c n s T' c' n' k :
  state_ s = IDLE -> 1 <= n <= 64 -> 0 <= c < 2 ^ type_bits T ->
  (k < Z.to_nat (4 * (n - 1) + 2))%nat ->
  fst (fst (send T' c' n' (fst (run k (after_send T c n s))))) = false
  /\ snd (run k (after_send T c n s))
     ++ snd (run (Z.to_nat (4 * (n - 1) + 2) - k)
               (after_send T' c' n' (fst (run k (after_send T c n s)))))
     = bit_frames true (code_bits c n)
  /\ state_ (fst (run (Z.to_nat (4 * (n - 1) + 2) - k)
                 (after_send T' c' n' (fst (run k (after_send T c n s))))))
     = IDLE.
Proof.
  intros Hidle Hn Hc Hk. fold (job_ticks n) in *.
  pose proof pow2_size_big as Hbig.
  assert (Hs : state_ (fst (run k (after_send T c n s))) <> IDLE).
  { rewrite send_sending_before by (try assumption; lia). discriminate. }
  assert (Ea : after_send T' c' n' (fst (run k (after_send T c n s)))
               = fst (run k (after_send T c n s)))
    by (unfold after_send at 1; now rewrite (send_busy T' c' n' _ Hs)).
  rewrite Ea, (send_busy T' c' n' _ Hs). cbn [fst snd].
  destruct (send_frames T c n s Hidle Hn Hc) as (E & St & _).
  replace (job_ticks n) with (k + (job_ticks n - k))%nat in E, St by lia.
  rewrite run_add in E, St. cbn [fst snd] in E, St.
  repeat split; assumption.
Qed.

(** X8: the transmitter can be used again.  After a job has completed,
    and after any number of further ticks, which do nothing, a new
    [send] is accepted and pulses exactly its own code. *)
Theorem second_job_after_first T1 c1 n1 T2 c2 n2 s m :
  state_ s = IDLE ->
  1 <= n1 <= 64 -> 0 <= c1 < 2 ^ type_bits T1 ->
  1 <= n2 <= 64 -> 0 <= c2 < 2 ^ type_bits T2 ->
  snd (run (Z.to_nat (4 * (n1 - 1) + 2) + m) (after_send T1 c1 n1 s))
  = bit_frames true (code_bits c1 n1) ++ repeat [] m
  /\ fst (fst (send T2 c2 n2
        (fst (run (Z.to_nat (4 * (n1 - 1) + 2) + m) (after_send T1 c1 n1 s)))))
     = true
  /\ snd (run (Z.to_nat (4 * (n2 - 1) + 2))
            (after_send T2 c2 n2
               (fst (run (Z.to_nat (4 * (n1 - 1) + 2) + m)
                       (after_send T1 c1 n1 s)))))
     = bit_frames true (code_bits c2 n2)
  /\ state_ (fst (run (Z.to_nat (4 * (n2 - 1) + 2))
            (after_send T2 c2 n2
               (fst (run (Z.to_nat (4 * (n1 - 1) + 2) + m)
                       (after_send T1 c1 n1 s)))))) = IDLE.
Proof.
  intros Hidle Hn1 Hc1 Hn2 Hc2. fold (job_ticks n1) (job_ticks n2).
  destruct (send_frames T1 c1 n1 s Hidle Hn1 Hc1) as (E1 & St1 & _).
  rewrite (run_beyond (job_ticks n1 + m) (job_ticks n1)) by (try congruence; lia).
  cbn [fst snd]. rewrite E1.
  replace (job_ticks n1 + m - job_ticks n1)%nat with m by lia.
  destruct (send_frames T2 c2 n2 _ St1 Hn2 Hc2) as (E2 & St2 & _).
  split; [reflexivity|]. split; [now rewrite send_idle|].
  split; assumption.
Qed.

(** X9: only the low [n] bits of the code reach the wire: two codes
    that agree on them give the same pin calls at every tick. *)
Theorem high_code_bits_ignored T c c' n s k :
  state_ s = IDLE -> 1 <= n <= 64 ->
  0 <= c < 2 ^ type_bits T -> 0 <= c' < 2 ^ type_bits T ->
  c mod 2 ^ n = c' mod 2 ^ n ->
  snd (run k (after_send T c n s)) = snd (run k (after_send T c' n s)).
Proof.
  intros Hidle Hn Hc Hc' Hmod.
  rewrite !send_run_any by assumption.
  rewrite <- (code_bits_mod c n), <- (code_bits_mod c' n), Hmod by lia.
  reflexivity.
Qed.

(** X10: a 32-bit code sent with more than 32 bits is extended with
    zeros: the job first pulses D0 [n - 32] times, then the 32 bits of
    the code. *)
Theorem narrow_code_zero_extended c n s :
  state_ s = IDLE -> 32 < n <= 64 -> 0 <= c < 2 ^ 32 ->
  snd (run (Z.to_nat (4 * (n - 1) + 2)) (after_send UInt32 c n s))
  = bit_frames true (repeat false (Z.to_nat (n - 32)) ++ code_bits c 32).
Proof.
  intros Hidle Hn Hc. fold (job_ticks n).
  destruct (send_frames UInt32 c n s Hidle ltac:(lia) Hc) as (E & _).
  rewrite E. f_equal. unfold code_bits.
  replace (Z.to_nat n) with (Z.to_nat (n - 32) + Z.to_nat 32)%nat by lia.
  rewrite bits_from_app. f_equal.
  - apply bits_from_false. intros i Hi. apply (testbit_above 32); lia.
  - f_equal. lia.
Qed.

(** X11: encoder and transmitter together.  Sending the word
    [code] returns, with its own width, pulses the even parity bit, then
    the eight bits of the facility code and the [BITS - 10] bits of the
    id, each most significant first, then the odd parity bit. *)
Theorem send_code_frames BITS facility id s :
  state_ s = IDLE -> Z.even BITS = true -> 10 <= BITS <= 64 ->
  0 <= facility <= 255 -> 0 <= id < 2 ^ (BITS - 10) ->
  snd (run (Z.to_nat (4 * (BITS - 1) + 2))
         (after_send (R_type BITS) (code BITS facility id) BITS s))
  = bit_frames true
      (even_parity BITS (raw_code BITS facility id)
       :: bits_from facility 7 8
       ++ bits_from id (BITS - 11) (Z.to_nat (BITS - 10))
       ++ [odd_parity BITS (raw_code BITS facility id)]).
Proof.
  intros Hidle _ HB Hf Hid. fold (job_ticks BITS).
  destruct (raw_code_range BITS facility id HB Hf Hid) as (Eraw & Hraw & HR).
  pose proof (add_parity_range BITS (R_type BITS) _ ltac:(lia) Hraw) as Hw.
  destruct (add_parity_testbit BITS (R_type BITS) _ ltac:(lia) HR Hraw)
    as (B0 & Btop & Bmid).
  assert (HRB : 2 ^ BITS <= 2 ^ type_bits (R_type BITS)).
  { apply pow2_le_mono. destruct (R_bits_cases BITS) as [[? ->]|[? ->]]; lia. }
  unfold code. rewrite Eraw.
  set (raw := Z.lor (Z.shiftl facility (BITS - 10)) id) in *.
  set (w := add_parity BITS (R_type BITS) raw) in *.
  destruct (send_frames (R_type BITS) w BITS s Hidle ltac:(lia) ltac:(lia))
    as (E & _).
  rewrite E. f_equal. unfold code_bits.
  replace (Z.to_nat BITS) with (1 + (8 + (Z.to_nat (BITS - 10) + 1)))%nat by lia.
  rewrite (bits_from_app w 1), (bits_from_app w 8),
    (bits_from_app w (Z.to_nat (BITS - 10))).
  change (bits_from w (BITS - 1) 1) with [Z.testbit w (BITS - 1)].
  cbn [app]. rewrite Btop. f_equal. f_equal; [|f_equal].
  - replace (BITS - 1 - Z.of_nat 1) with (BITS - 2) by lia.
    replace 7 with (BITS - 2 + (9 - BITS)) by lia.
    apply bits_from_ext. intros i Hi.
    replace i with (i - 1 + 1) at 1 by lia. rewrite Bmid by lia.
    unfold raw. rewrite Z.lor_spec, Z.shiftl_spec by lia.
    rewrite (testbit_above (BITS - 10) id) by lia.
    rewrite orb_false_r. f_equal; lia.
  - replace (BITS - 1 - Z.of_nat 1 - Z.of_nat 8) with (BITS - 10) by lia.
    replace (BITS - 11) with (BITS - 10 + -1) by lia.
    apply bits_from_ext. intros i Hi.
    replace i with (i - 1 + 1) at 1 by lia. rewrite Bmid by lia.
    unfold raw. rewrite Z.lor_spec, Z.shiftl_spec_low by lia.
    cbn [orb]. f_equal; lia.
  - replace (BITS - 1 - Z.of_nat 1 - Z.of_nat 8 - Z.of_nat (Z.to_nat (BITS - 10)))
      with 0 by lia.
    cbn [bits_from]. now rewrite B0.
Qed.

(** ** Transmitter: further invariants *)

Lemma outputs_inv_tick s : outputs_inv s -> outputs_inv (fst (tick s)).
Proof.
  destruct s as [st [dir0 v0] [dir1 v1] c ext m pos n].
  unfold outputs_inv, tick, tick_switch, carry_over, write_bit, and_then, pin_call.
  cbn [send_pos_ state_ d0_pin_ d1_pin_ pin_direction].
  intros H. destruct st; [cbn; auto | cbn; auto |].
  step_tick; intros; try discriminate; try (split; reflexivity);
    apply H; try reflexivity; assumption.
Qed.

Lemma outputs_inv_send T c n s : outputs_inv s -> outputs_inv (after_send T c n s).
Proof.
  destruct s as [st p0 p1 c0 ext m pos k].
  unfold outputs_inv, after_send, send.
  intros H. destruct st; step_tick; intros; try discriminate; try contradiction; auto.
Qed.

Lemma reachable_outputs_inv s : reachable s -> outputs_inv s.
Proof.
  induction 1 as [|T c n s _ IH|s _ IH].
  - intros H. discriminate H.
  - apply outputs_inv_send, IH.
  - apply outputs_inv_tick, IH.
Qed.

(** X12: a pulse is really on the bus.  In every reachable state at
    phase 0 of a bit, after the tick the line of the bit is an output
    written low, and the other line is an output written high. *)
Theorem pulse_is_driven s :
  reachable s -> state_ s = SENDING -> send_pos_ s mod 4 = 0 ->
  (current_bit (code_ s) (mask_bit_ s) = true ->
     driven_low (d1_pin_ (fst (tick s)))
     /\ d0_pin_ (fst (tick s)) = mkPin PIN_OUTPUT true)
  /\ (current_bit (code_ s) (mask_bit_ s) = false ->
     driven_low (d0_pin_ (fst (tick s)))
     /\ d1_pin_ (fst (tick s)) = mkPin PIN_OUTPUT true).
Proof.
  intros Hr Hst Hmod.
  pose proof (reachable_lines_inv s Hr) as [_ Hv].
  pose proof (reachable_outputs_inv s Hr) as Ho.
  destruct s as [st [dir0 v0] [dir1 v1] c ext m pos n].
  unfold outputs_inv, driven_low, current_bit in *.
  cbn [send_pos_ state_ d0_pin_ d1_pin_ pin_direction pin_value code_ mask_bit_] in *.
  subst st.
  assert (Hpins : pos <> 0 -> dir0 = PIN_OUTPUT /\ dir1 = PIN_OUTPUT
                             /\ v0 = true /\ v1 = true).
  { intros Hp. destruct (Ho eq_refl Hp) as [-> ->].
    destruct Hv as [[-> ->]|(_ & Hv & _)]; [auto|lia]. }
  clear Ho Hv.
  unfold tick, tick_switch, carry_over, write_bit, and_then, pin_call.
  step_tick; try lia; try contradiction.
  all: split; intros Hb; try discriminate Hb.
  all: try (split; [split|]; reflexivity).
  all: match goal with
       | H : ?p <> 0 |- _ => destruct (Hpins H) as (-> & -> & -> & ->)
       end.
  all: split; [split|]; reflexivity.
Qed.

Lemma shiftr_one_hot k :
  0 <= k <= 31 ->
  (k = 0 /\ Z.shiftr (2 ^ k) 1 = 0)
  \/ (0 < k /\ Z.shiftr (2 ^ k) 1 = 2 ^ (k - 1) /\ 2 ^ (k - 1) <> 0).
Proof.
  intros Hk. destruct (Z.eq_dec k 0) as [->|Hne].
  - left. split; reflexivity.
  - right. split; [lia|]. split; [apply shiftr_pow2; lia|].
    pose proof (Z.pow_pos_nonneg 2 (k - 1) ltac:(lia) ltac:(lia)). lia.
Qed.

Lemma words_inv_tick s : words_inv s -> words_inv (fst (tick s)).
Proof.
  destruct s as [st p0 p1 c ext m pos n].
  unfold words_inv. cbn [mask_bit_ code_ code_ext_].
  intros ((k & Hk & ->) & Hc & He).
  assert (H2k : 2 ^ k <> 0)
    by (pose proof (Z.pow_pos_nonneg 2 k ltac:(lia) ltac:(lia)); lia).
  unfold tick, tick_switch, carry_over, write_bit, and_then, pin_call.
  destruct st; [cbn; eauto | cbn; eauto |].
  destruct (shiftr_one_hot k Hk) as [(-> & Hs)|(Hpos & Hs & Hnz)].
  - step_tick; try contradiction; try (rewrite Hs in *; contradiction);
      (split; [|split; assumption]);
      first [ exists 31; split; [lia|reflexivity]
            | exists 0; split; [lia|reflexivity] ].
  - step_tick; try contradiction; try (rewrite Hs in *; contradiction);
      (split; [|split; assumption]);
      first [ exists k; split; [lia|reflexivity]
            | exists (k - 1); split; [lia|exact Hs] ].
Qed.

Lemma words_inv_send T c n s :
  1 <= n <= 64 -> 0 <= c < 2 ^ type_bits T ->
  words_inv s -> words_inv (after_send T c n s).
Proof.
  intros Hn Hc Hs. unfold after_send.
  destruct (state_ s) eqn:Est.
  2,3: rewrite send_busy by congruence; exact Hs.
  rewrite send_idle by assumption. cbn [fst snd].
  destruct Hs as (_ & _ & He).
  assert (Hw : forall x, 0 <= wrap 32 x < 2 ^ 32)
    by (intros x; apply Z.mod_pos_bound; reflexivity).
  unfold words_inv. cbn [mask_bit_ code_ code_ext_].
  destruct (Z.gtb_spec n 32) as [Hwide|Hnarrow].
  - rewrite high_word by assumption. rewrite shl_1_pow2 by lia.
    split; [exists (n - 1 - 32); split; [lia|reflexivity]|].
    split; [|apply Hw].
    rewrite <- (high_word T c Hc). destruct T; [split; [lia|reflexivity]|apply Hw].
  - rewrite shl_1_pow2 by lia.
    split; [exists (n - 1); split; [lia|reflexivity]|].
    split; [apply Hw|exact He].
Qed.

(** X13: the mask is a one-bit cursor.  In every state reachable with
    sends of 1 to 64 bits, at rest between two calls, [mask_bit_] is a
    single bit of a 32-bit word (never 0), and [code_] and [code_ext_]
    are 32-bit values. *)
Theorem mask_is_one_hot s :
  reachable_supported s ->
  (exists k, 0 <= k <= 31 /\ mask_bit_ s = 2 ^ k)
  /\ 0 <= code_ s < 2 ^ 32
  /\ 0 <= code_ext_ s < 2 ^ 32.
Proof.
  induction 1 as [|T c n s _ IH Hn Hc|s _ IH].
  - split; [exists 0; split; [lia|reflexivity]|]. split; cbn; lia.
  - apply words_inv_send; assumption.
  - apply words_inv_tick; assumption.
Qed.

(** X14: the state [RECEIVING] is never entered: no sequence of [send]
    and [tick] calls, with any arguments, leads to it. *)
Theorem receiving_unreachable s : reachable s -> state_ s <> RECEIVING.
Proof.
  induction 1 as [|T c n s _ IH|s _ IH].
  - discriminate.
  - destruct s as [st p0 p1 c0 ext m pos k]. cbn in IH.
    unfold after_send, send. destruct st; step_tick; try discriminate; congruence.
  - destruct s as [st p0 p1 c ext m pos n]. cbn in IH.
    unfold tick, tick_switch, carry_over, write_bit, and_then, pin_call.
    destruct st; step_tick; try discriminate; congruence.
Qed.

(** X15: switching the lines to output never pulls one low.  Whenever
    [tick] is about to call [output()] (the object is sending and the
    position counter is 0) the level last written to each pin is high,
    so the pin does not drive the bus low between [pin_.output()] and
    [pin_.write(1)]. *)
Theorem output_switch_never_pulls_low s :
  reachable s -> state_ s = SENDING -> send_pos_ s = 0 ->
  ~ driven_low (output_switching (d0_pin_ s))
  /\ ~ driven_low (output_switching (d1_pin_ s)).
Proof.
  intros Hr Hst Hpos.
  destruct (reachable_lines_inv s Hr) as [_ [[H0 H1]|(_ & Hmod & _)]].
  - unfold driven_low, output_switching. cbn [pin_value].
    split; intros [_ H]; congruence.
  - rewrite Hpos in Hmod. discriminate Hmod.
Qed.

(** ** Encoder: what the parity bits detect *)





(** ** Encoder: the layout for an argument as wide as the result *)

Lemma wrap_wrap a b x : 0 <= a <= b -> wrap a (wrap b x) = wrap a x.
Proof.
  intros H. unfold wrap. apply Z.mod_mod_divide.
  exists (2 ^ (b - a)). rewrite <- Z.pow_add_r by lia. f_equal. lia.
Qed.

(** X17: when the argument type is at least as wide as the result type
    (as in [code]), for even [BITS] ([2 <= BITS <= 64]) and every raw
    code, [add_parity] returns the code shifted left by 1 in the result
    type, OR-ed with the even parity at bit [BITS - 1] and the odd
    parity at bit 0.  The odd parity is the XOR of the low
    [BITS/2 - 1] bits of the raw code with seed 1, so that group and its
    parity bit hold an odd number of ones; the even parity is the XOR
    of the next [BITS/2 - 1] bits with seed 0, so that group and its
    parity bit hold an even number of ones. *)
Theorem add_parity_layout_wide BITS T c :
  Z.even BITS = true -> 2 <= BITS <= 64 ->
  type_bits (R_type BITS) <= type_bits T ->
  add_parity BITS T c
  = Z.lor (Z.lor (wrap (type_bits (R_type BITS)) (Z.shiftl c 1))
                 (Z.shiftl (Z.b2z (even_parity BITS c)) (BITS - 1)))
          (Z.b2z (odd_parity BITS c))
  /\ odd_parity BITS c = xor_bits true c 0 (Z.to_nat (BITS / 2 - 1))
  /\ even_parity BITS c
     = xor_bits false c (BITS / 2 - 1) (Z.to_nat (BITS / 2 - 1))
  /\ Nat.odd (count_bits c 0 (Z.to_nat (BITS / 2 - 1))
              + Nat.b2n (odd_parity BITS c)) = true
  /\ Nat.even (count_bits c (BITS / 2 - 1) (Z.to_nat (BITS / 2 - 1))
               + Nat.b2n (even_parity BITS c)) = true.
Proof.
  intros He HB HT.
  destruct (even_half BITS He ltac:(lia)) as (_ & _ & Hh).
  split.
  - rewrite add_parity_closed by assumption. unfold add_parity_spec.
    rewrite wrap_wrap; [reflexivity|].
    destruct (R_bits_cases BITS) as [[? E]|[? E]]; rewrite E in *; lia.
  - unfold odd_parity, even_parity. rewrite Hh. fold (half_width BITS).
    split; [reflexivity|]. split; [reflexivity|].
    split; [apply odd_group_count|apply even_group_count].
Qed.

End Target.

(** * Instances on a 32-bit target *)

(** C5 as stated fails for the 26-bit format: the raw code
    [1 << 12] has even parity bit 1, which stays above the payload after
    the shift. *)
Lemma add_parity_shift_not_code :
  Z.even 26 = true /\ 0 <= 4096 < 2 ^ (26 - 2)
  /\ Z.shiftr (add_parity 32 (fun _ _ => 0) 26 UInt32 4096) 1 = 4096 + 2 ^ 24
  /\ Z.shiftr (add_parity 32 (fun _ _ => 0) 26 UInt32 4096) 1 <> wrap (26 - 2) 4096.
Proof.
  split; [reflexivity|]. split; [lia|]. split; [reflexivity|].
  vm_compute. discriminate.
Qed.

(** A 32-bit argument loses its top bit in [code << 1] when the message
    is wider than 32 bits. *)
Example add_parity_narrow_argument :
  add_parity 32 (fun _ _ => 0) 34 UInt32 (2 ^ 31) = 2 ^ 33 + 1
  /\ add_parity 32 (fun _ _ => 0) 34 UInt64 (2 ^ 31) = 2 ^ 33 + 2 ^ 32 + 1.
Proof. split; reflexivity. Qed.

Lemma tick_pulse_sequence_witness :
  state_ initial = IDLE /\ 1 <= 4 <= 64 /\ 0 <= 3 < 2 ^ type_bits UInt32
  /\ snd (run 32 (fun _ _ => 0) (Z.to_nat (4 * (4 - 1) + 2))
              (after_send 32 (fun _ _ => 0) UInt32 3 4 initial))
     = bit_frames true (code_bits 3 4).
Proof.
  split; [reflexivity|]. split; [lia|]. split; [cbn; lia|].
  apply (tick_pulse_sequence 32 (fun _ _ => 0) ltac:(lia) UInt32 3 4 initial);
    [reflexivity | lia | cbn; lia].
Defined.

Lemma add_parity_narrow_shift_lost_witness :
  16 <= 32
  /\ add_parity 32 (fun _ _ => 0) 34 UInt32 (2 ^ 31) = 2 ^ 33 + 1
  /\ add_parity 32 (fun _ _ => 0) 34 UInt64 (2 ^ 31) = 2 ^ 33 + 2 ^ 32 + 1.
Proof.
  split; [lia|].
  destruct (add_parity_narrow_shift_lost 32 (fun _ _ => 0) ltac:(lia))
    as (Hcode & _ & _ & Hwide).
  split; assumption.
Defined.

Lemma send_rejected_while_busy_witness :
  state_ (after_send 32 (fun _ _ => 0) UInt32 3 4 initial) <> IDLE
  /\ send 32 (fun _ _ => 0) UInt32 5 26 (after_send 32 (fun _ _ => 0) UInt32 3 4 initial)
     = (false, after_send 32 (fun _ _ => 0) UInt32 3 4 initial, []).
Proof.
  split; [discriminate|].
  apply (send_rejected_while_busy 32 (fun _ _ => 0) UInt32 5 26
           (after_send 32 (fun _ _ => 0) UInt32 3 4 initial)).
  discriminate.
Defined.

Lemma wide_code_carry_over_witness :
  state_ initial = IDLE /\ 32 < 40 <= 64 /\ 0 <= 2 ^ 39 + 5 < 2 ^ type_bits UInt64
  /\ pulses (snd (run 32 (fun _ _ => 0) (Z.to_nat (4 * (40 - 1) + 2))
                      (after_send 32 (fun _ _ => 0) UInt64 (2 ^ 39 + 5) 40 initial)))
     = Z.to_nat 40.
Proof.
  split; [reflexivity|]. split; [lia|]. split; [cbn; lia|].
  apply (wide_code_carry_over 32 (fun _ _ => 0) ltac:(lia) UInt64 (2 ^ 39 + 5) 40 initial);
    [reflexivity | lia | cbn; lia].
Defined.

Lemma add_parity_shift_masked_witness :
  Z.even 26 = true /\ 2 <= 26 <= 64 /\ 26 - 1 <= type_bits UInt32
  /\ 0 <= 4096 < 2 ^ (26 - 2)
  /\ wrap (26 - 2) (Z.shiftr (add_parity 32 (fun _ _ => 0) 26 UInt32 4096) 1) = 4096.
Proof.
  split; [reflexivity|]. split; [lia|]. split; [cbn; lia|]. split; [lia|].
  apply (add_parity_shift_masked 32 (fun _ _ => 0) ltac:(lia) 26 UInt32 4096);
    [reflexivity | lia | cbn; lia | lia].
Defined.

Lemma lines_never_both_low_witness :
  reachable 32 (fun _ _ => 0) (after_send 32 (fun _ _ => 0) UInt32 3 4 initial)
  /\ set_low_calls (snd (tick 32 (fun _ _ => 0)
                          (after_send 32 (fun _ _ => 0) UInt32 3 4 initial)))
     = [(D0, SetLow)].
Proof.
  assert (H : reachable 32 (fun _ _ => 0)
                (after_send 32 (fun _ _ => 0) UInt32 3 4 initial))
    by (apply reachable_send, reachable_initial).
  split; [exact H|].
  apply (lines_never_both_low 32 (fun _ _ => 0) ltac:(lia) _ H); reflexivity.
Defined.

Lemma code_packs_facility_and_id_witness :
  10 <= 26 <= 64 /\ 0 <= 255 <= 255 /\ 0 <= 65535 < 2 ^ (26 - 10)
  /\ raw_code 32 (fun _ _ => 0) 26 255 65535 = Z.lor (Z.shiftl 255 (26 - 10)) 65535.
Proof.
  split; [lia|]. split; [lia|]. split; [lia|].
  apply (code_packs_facility_and_id 32 (fun _ _ => 0) ltac:(lia) 26 255 65535); lia.
Defined.

Lemma send_history_independent_witness :
  state_ initial = IDLE
  /\ state_ (mkWiegand IDLE Pin_new Pin_new 7 (2 ^ 32 - 1) 4 13 0) = IDLE
  /\ 1 <= 4 <= 64 /\ 0 <= 3 < 2 ^ type_bits UInt32
  /\ forall k,
       snd (run 32 (fun _ _ => 0) k (after_send 32 (fun _ _ => 0) UInt32 3 4 initial))
       = snd (run 32 (fun _ _ => 0) k
                  (after_send 32 (fun _ _ => 0) UInt32 3 4
                     (mkWiegand IDLE Pin_new Pin_new 7 (2 ^ 32 - 1) 4 13 0))).
Proof.
  split; [reflexivity|]. split; [reflexivity|]. split; [lia|]. split; [cbn; lia|].
  apply (send_history_independent 32 (fun _ _ => 0) ltac:(lia) UInt32 3 4 initial
           (mkWiegand IDLE Pin_new Pin_new 7 (2 ^ 32 - 1) 4 13 0));
    [reflexivity | reflexivity | lia | cbn; lia].
Defined.

Lemma send_zero_bits_wraps_witness :
  state_ initial = IDLE
  /\ send_bits_ (fst (run 32 (fun _ _ => 0) 2
                          (after_send 32 (fun _ _ => 0) UInt32 3 0 initial)))
     = 2 ^ 32 - 1.
Proof.
  split; [reflexivity|].
  apply (send_zero_bits_wraps 32 (fun _ _ => 0) ltac:(lia) UInt32 3 initial).
  reflexivity.
Defined.

Lemma idle_pins_floating_witness :
  idle_floating initial
  /\ idle_floating (fst (tick 32 (fun _ _ => 0) initial)).
Proof.
  destruct (idle_pins_floating 32 (fun _ _ => 0)) as (Hinit & Hstep & _).
  split; [exact Hinit|]. apply (Hstep initial Hinit).
Defined.

(** ** Instances of the further properties *)

Lemma add_parity_fits_width_witness :
  Z.even 26 = true /\ 2 <= 26 <= 64 /\ 0 <= 4096 < 2 ^ (26 - 2)
  /\ 0 <= add_parity 32 (fun _ _ => 0) 26 UInt32 4096 < 2 ^ 26.
Proof.
  split; [reflexivity|]. split; [lia|]. split; [lia|].
  apply (add_parity_fits_width 32 (fun _ _ => 0) ltac:(lia) 26 UInt32 4096);
    [reflexivity | lia | lia].
Defined.

Lemma add_parity_bit_layout_witness :
  Z.even 26 = true /\ 2 <= 26 <= 64 /\ 26 - 1 <= type_bits UInt32
  /\ 0 <= 4096 < 2 ^ (26 - 2)
  /\ Z.testbit (add_parity 32 (fun _ _ => 0) 26 UInt32 4096) (26 - 1)
     = even_parity 26 4096.
Proof.
  split; [reflexivity|]. split; [lia|]. split; [cbn; lia|]. split; [lia|].
  apply (add_parity_bit_layout 32 (fun _ _ => 0) ltac:(lia) 26 UInt32 4096);
    [reflexivity | lia | cbn; lia | lia].
Defined.

Lemma wire_word_parity_check_witness :
  Z.even 26 = true /\ 2 <= 26 <= 64 /\ 26 - 1 <= type_bits UInt32
  /\ 0 <= 4096 < 2 ^ (26 - 2)
  /\ Nat.odd (count_bits (add_parity 32 (fun _ _ => 0) 26 UInt32 4096) 0
                         (Z.to_nat (26 / 2))) = true.
Proof.
  split; [reflexivity|]. split; [lia|]. split; [cbn; lia|]. split; [lia|].
  apply (wire_word_parity_check 32 (fun _ _ => 0) ltac:(lia) 26 UInt32 4096);
    [reflexivity | lia | cbn; lia | lia].
Defined.

Lemma code_fields_recovered_witness :
  Z.even 26 = true /\ 10 <= 26 <= 64 /\ 0 <= 200 <= 255
  /\ 0 <= 12345 < 2 ^ (26 - 10)
  /\ Z.shiftr (code 32 (fun _ _ => 0) 26 200 12345) (26 - 9) mod 2 ^ 8 = 200
  /\ Z.shiftr (code 32 (fun _ _ => 0) 26 200 12345) 1 mod 2 ^ (26 - 10) = 12345.
Proof.
  split; [reflexivity|]. split; [lia|]. split; [lia|]. split; [lia|].
  apply (code_fields_recovered 32 (fun _ _ => 0) ltac:(lia) 26 200 12345);
    [reflexivity | lia | lia | lia].
Defined.

Lemma raw_code_id_overflow_witness :
  10 <= 26 <= 64 /\ 0 <= 1 <= 255 /\ 0 <= 2 ^ 17 + 5 < 2 ^ type_bits (R_type 26)
  /\ Z.shiftr (raw_code 32 (fun _ _ => 0) 26 1 (2 ^ 17 + 5)) (26 - 10)
     = Z.lor 1 (Z.shiftr (2 ^ 17 + 5) (26 - 10)).
Proof.
  split; [lia|]. split; [lia|]. split; [cbn; lia|].
  apply (raw_code_id_overflow 32 (fun _ _ => 0) ltac:(lia) 26 1 (2 ^ 17 + 5));
    [lia | lia | cbn; lia].
Defined.

Lemma job_terminates_witness :
  state_ initial = IDLE /\ 1 <= 100 < 2 ^ 32
  /\ state_ (fst (run 32 (fun _ _ => 0) (Z.to_nat (4 * (100 - 1) + 2))
                      (after_send 32 (fun _ _ => 0) UInt64 3 100 initial))) = IDLE.
Proof.
  split; [reflexivity|]. split; [lia|].
  apply (job_terminates 32 (fun _ _ => 0) ltac:(lia) UInt64 3 100 initial);
    [reflexivity | lia].
Defined.

Lemma busy_send_leaves_job_witness :
  state_ initial = IDLE /\ 1 <= 4 <= 64 /\ 0 <= 3 < 2 ^ type_bits UInt32
  /\ (5 < Z.to_nat (4 * (4 - 1) + 2))%nat
  /\ fst (fst (send 32 (fun _ _ => 0) UInt32 5 26
                 (fst (run 32 (fun _ _ => 0) 5
                         (after_send 32 (fun _ _ => 0) UInt32 3 4 initial)))))
     = false.
Proof.
  split; [reflexivity|]. split; [lia|]. split; [cbn; lia|]. split; [cbn; lia|].
  apply (busy_send_leaves_job 32 (fun _ _ => 0) ltac:(lia) UInt32 3 4 initial
           UInt32 5 26 5); [reflexivity | lia | cbn; lia | cbn; lia].
Defined.

Lemma second_job_after_first_witness :
  state_ initial = IDLE /\ 1 <= 4 <= 64 /\ 0 <= 3 < 2 ^ type_bits UInt32
  /\ 1 <= 3 <= 64 /\ 0 <= 5 < 2 ^ type_bits UInt32
  /\ snd (run 32 (fun _ _ => 0) (Z.to_nat (4 * (3 - 1) + 2))
            (after_send 32 (fun _ _ => 0) UInt32 5 3
               (fst (run 32 (fun _ _ => 0) (Z.to_nat (4 * (4 - 1) + 2) + 2)
                       (after_send 32 (fun _ _ => 0) UInt32 3 4 initial)))))
     = bit_frames true (code_bits 5 3).
Proof.
  split; [reflexivity|]. split; [lia|]. split; [cbn; lia|].
  split; [lia|]. split; [cbn; lia|].
  apply (second_job_after_first 32 (fun _ _ => 0) ltac:(lia) UInt32 3 4 UInt32 5 3
           initial 2); [reflexivity | lia | cbn; lia | lia | cbn; lia].
Defined.

Lemma high_code_bits_ignored_witness :
  state_ initial = IDLE /\ 1 <= 4 <= 64
  /\ 0 <= 3 < 2 ^ type_bits UInt64 /\ 0 <= 3 + 2 ^ 40 < 2 ^ type_bits UInt64
  /\ 3 mod 2 ^ 4 = (3 + 2 ^ 40) mod 2 ^ 4
  /\ snd (run 32 (fun _ _ => 0) 14 (after_send 32 (fun _ _ => 0) UInt64 3 4 initial))
     = snd (run 32 (fun _ _ => 0) 14
              (after_send 32 (fun _ _ => 0) UInt64 (3 + 2 ^ 40) 4 initial)).
Proof.
  split; [reflexivity|]. split; [lia|]. split; [cbn; lia|]. split; [cbn; lia|].
  split; [reflexivity|].
  apply (high_code_bits_ignored 32 (fun _ _ => 0) ltac:(lia) UInt64 3 (3 + 2 ^ 40) 4
           initial 14); [reflexivity | lia | cbn; lia | cbn; lia | reflexivity].
Defined.

Lemma narrow_code_zero_extended_witness :
  state_ initial = IDLE /\ 32 < 34 <= 64 /\ 0 <= 5 < 2 ^ 32
  /\ snd (run 32 (fun _ _ => 0) (Z.to_nat (4 * (34 - 1) + 2))
            (after_send 32 (fun _ _ => 0) UInt32 5 34 initial))
     = bit_frames true (repeat false (Z.to_nat (34 - 32)) ++ code_bits 5 32).
Proof.
  split; [reflexivity|]. split; [lia|]. split; [lia|].
  apply (narrow_code_zero_extended 32 (fun _ _ => 0) ltac:(lia) 5 34 initial);
    [reflexivity | lia | lia].
Defined.

Lemma send_code_frames_witness :
  state_ initial = IDLE /\ Z.even 26 = true /\ 10 <= 26 <= 64
  /\ 0 <= 200 <= 255 /\ 0 <= 12345 < 2 ^ (26 - 10)
  /\ snd (run 32 (fun _ _ => 0) (Z.to_nat (4 * (26 - 1) + 2))
            (after_send 32 (fun _ _ => 0) (R_type 26)
               (code 32 (fun _ _ => 0) 26 200 12345) 26 initial))
     = bit_frames true
         (even_parity 26 (raw_code 32 (fun _ _ => 0) 26 200 12345)
          :: bits_from 200 7 8
          ++ bits_from 12345 (26 - 11) (Z.to_nat (26 - 10))
          ++ [odd_parity 26 (raw_code 32 (fun _ _ => 0) 26 200 12345)]).
Proof.
  split; [reflexivity|]. split; [reflexivity|]. split; [lia|].
  split; [lia|]. split; [lia|].
  apply (send_code_frames 32 (fun _ _ => 0) ltac:(lia) 26 200 12345 initial);
    [reflexivity | reflexivity | lia | lia | lia].
Defined.

Lemma pulse_is_driven_witness :
  reachable 32 (fun _ _ => 0) (after_send 32 (fun _ _ => 0) UInt32 3 4 initial)
  /\ driven_low (d0_pin_ (fst (tick 32 (fun _ _ => 0)
                                 (after_send 32 (fun _ _ => 0) UInt32 3 4 initial)))).
Proof.
  assert (H : reachable 32 (fun _ _ => 0)
                (after_send 32 (fun _ _ => 0) UInt32 3 4 initial))
    by (apply reachable_send, reachable_initial).
  split; [exact H|].
  apply (pulse_is_driven 32 (fun _ _ => 0) ltac:(lia) _ H); reflexivity.
Defined.

Lemma mask_is_one_hot_witness :
  reachable_supported 32 (fun _ _ => 0)
    (fst (tick 32 (fun _ _ => 0) (after_send 32 (fun _ _ => 0) UInt32 3 4 initial)))
  /\ exists k, 0 <= k <= 31
       /\ mask_bit_ (fst (tick 32 (fun _ _ => 0)
                            (after_send 32 (fun _ _ => 0) UInt32 3 4 initial)))
          = 2 ^ k.
Proof.
  assert (H : reachable_supported 32 (fun _ _ => 0)
                (fst (tick 32 (fun _ _ => 0)
                        (after_send 32 (fun _ _ => 0) UInt32 3 4 initial)))).
  { apply supported_tick, supported_send; [apply supported_initial|lia|cbn; lia]. }
  split; [exact H|].
  apply (mask_is_one_hot 32 (fun _ _ => 0) ltac:(lia) _ H).
Defined.

Lemma receiving_unreachable_witness :
  reachable 32 (fun _ _ => 0) (after_send 32 (fun _ _ => 0) UInt32 3 4 initial)
  /\ state_ (after_send 32 (fun _ _ => 0) UInt32 3 4 initial) <> RECEIVING.
Proof.
  assert (H : reachable 32 (fun _ _ => 0)
                (after_send 32 (fun _ _ => 0) UInt32 3 4 initial))
    by (apply reachable_send, reachable_initial).
  split; [exact H|].
  apply (receiving_unreachable 32 (fun _ _ => 0) _ H).
Defined.

Lemma output_switch_never_pulls_low_witness :
  reachable 32 (fun _ _ => 0) (after_send 32 (fun _ _ => 0) UInt32 3 4 initial)
  /\ ~ driven_low (output_switching
                     (d0_pin_ (after_send 32 (fun _ _ => 0) UInt32 3 4 initial))).
Proof.
  assert (H : reachable 32 (fun _ _ => 0)
                (after_send 32 (fun _ _ => 0) UInt32 3 4 initial))
    by (apply reachable_send, reachable_initial).
  split; [exact H|].
  apply (output_switch_never_pulls_low 32 (fun _ _ => 0) ltac:(lia) _ H);
    reflexivity.
Defined.


Lemma add_parity_layout_wide_witness :
  Z.even 26 = true /\ 2 <= 26 <= 64 /\ type_bits (R_type 26) <= type_bits UInt32
  /\ add_parity 32 (fun _ _ => 0) 26 UInt32 4096
     = Z.lor (Z.lor (wrap (type_bits (R_type 26)) (Z.shiftl 4096 1))
                    (Z.shiftl (Z.b2z (even_parity 26 4096)) (26 - 1)))
             (Z.b2z (odd_parity 26 4096)).
Proof.
  split; [reflexivity|]. split; [lia|]. split; [cbn; lia|].
  apply (add_parity_layout_wide 32 (fun _ _ => 0) ltac:(lia) 26 UInt32 4096);
    [reflexivity | lia | cbn; lia].
Defined.
